(** * filmlook: the pixel pipeline of [src/App.tsx]

    A shallow embedding of [clamp], [blur], [blurSeparate] and
    [applyFilmLook], of the update a slider makes to the parameters and of
    the size [onFile] scales an upload to; the properties the specification
    states about them, and further properties of the code.

    Modelling choices, all of them visible in the definitions below:

    - a JavaScript [number] is an exact real or [NaN]; the rounding of
      IEEE doubles and of [Float32Array] stores, and the infinities, are not
      modelled ([Math.exp] is the real exponential);
    - typed arrays live in a store ([world]) and are passed by handle, so that
      aliasing and in-place writes are explicit;
    - the browser is a [Platform]: whether a 2D context can be obtained, the
      values [Math.random] yields, and what a filtered [drawImage] paints.
      The argument checks of the [ImageData] constructor and of
      [getImageData] follow the HTML standard. *)

From Stdlib Require Import Reals Lra ZArith Lia String.
From stdpp Require Import base list.

Open Scope R_scope.

(** ** Numbers *)

Inductive number : Type :=
  | Fin (r : R)
  | NaN.

Declare Scope number_scope.
Delimit Scope number_scope with num.
Bind Scope number_scope with number.

Definition lift2 (f : R → R → R) (a b : number) : number :=
  match a, b with
  | Fin x, Fin y => Fin (f x y)
  | _, _ => NaN
  end.

Definition lift1 (f : R → R) (a : number) : number :=
  match a with
  | Fin x => Fin (f x)
  | NaN => NaN
  end.

(** Both divisors of the source, [255] and [1 + Math.exp(..)], are never
    zero, so the infinite quotients of IEEE arithmetic do not arise. *)
Definition nadd := lift2 Rplus.
Definition nsub := lift2 Rminus.
Definition nmul := lift2 Rmult.
Definition ndiv := lift2 Rdiv.
Definition nneg := lift1 Ropp.

Infix "+" := nadd : number_scope.
Infix "-" := nsub : number_scope.
Infix "*" := nmul : number_scope.
Infix "/" := ndiv : number_scope.
Notation "- x" := (nneg x) : number_scope.

Definition Math_exp : number → number := lift1 exp.
Definition Math_max : number → number → number := lift2 Rmax.
Definition Math_min : number → number → number := lift2 Rmin.

(** [a > b]: false as soon as one side is [NaN]. *)
Definition gt (a b : number) : bool :=
  match a, b with
  | Fin x, Fin y => if Rlt_dec y x then true else false
  | _, _ => false
  end.

(** The conversion applied by every store into a [Uint8ClampedArray]
    (ECMAScript ToUint8Clamp): round to nearest, ties to even. *)
Definition ToUint8Clamp (v : number) : Z :=
  match v with
  | NaN => 0
  | Fin x =>
      if Rle_dec x 0 then 0
      else if Rle_dec 255 x then 255
      else
        let f := Int_part x in
        if Rlt_dec (IZR f + / 2) x then f + 1
        else if Rlt_dec x (IZR f + / 2) then f
        else if Z.even f then f else f + 1
  end%Z.

(** ** Parameters ([App.tsx], lines 5-24) *)

Record FilmLookParams : Type := {
  toneA : R;
  glowThreshold : R;
  glowStrength : R;
  glowBlur : R;
  grainStrength : R;
  softFocusStrength : R;
  softFocusRadius : R;
}.

Definition defaultParams : FilmLookParams := {|
  toneA := 5.0;
  glowThreshold := 0.7;
  glowStrength := 0.4;
  glowBlur := 40;
  grainStrength := 0.02;
  softFocusStrength := 0.3;
  softFocusRadius := 10;
|}.

(** Helper: clamp 0..1 (line 27). *)
Definition clamp (v : number) : number :=
  Math_min (Math_max v (Fin 0)) (Fin 1).

(** ** The store *)

(** A typed array is referred to by its position in the store; the two
    element kinds have a store each. *)
Abbreviation Float32Array := nat (only parsing).
Abbreviation Uint8ClampedArray := nat (only parsing).

Record world : Type := {
  f32 : list (list number);   (* the Float32Arrays allocated so far *)
  u8c : list (list Z);        (* the Uint8ClampedArrays allocated so far *)
  draws : nat;                (* calls of Math.random so far *)
}.

Record ImageData : Type := {
  data : Uint8ClampedArray;
  width : Z;
  height : Z;
}.

Inductive exn : Type :=
  | RangeError
  | InvalidStateError
  | IndexSizeError
  | TypeError
  | Error (message : string).

(** How a run ends: with a value or with an exception (the promise of an
    [async] function is then rejected), and the store at that point. *)
Inductive outcome (A : Type) : Type :=
  | Ok (a : A) (σ : world)
  | Throw (e : exn) (σ : world).
Arguments Ok {A} a σ.
Arguments Throw {A} e σ.

Definition M (A : Type) : Type := world → outcome A.

#[export] Instance M_ret : MRet M := λ A a σ, Ok a σ.
#[export] Instance M_bind : MBind M := λ A B f m σ,
  match m σ with
  | Ok a σ' => f a σ'
  | Throw e σ' => Throw e σ'
  end.

(** [for (let i = 0; i < len; i++) body], started at [i] with [n]
    iterations to go. *)
Fixpoint iterate (n : nat) (i : nat) (body : nat → M unit) : M unit :=
  match n with
  | O => mret tt
  | S n' => body i ;; iterate n' (S i) body
  end.

Definition for_upto (len : Z) (body : nat → M unit) : M unit :=
  iterate (Z.to_nat len) 0 body.

(** The contents of an array; a handle always refers to a live array. *)
Definition floats (σ : world) (a : Float32Array) : list number :=
  default [] (f32 σ !! a).
Definition bytes (σ : world) (a : Uint8ClampedArray) : list Z :=
  default [] (u8c σ !! a).

(** [new Float32Array(len)], [new Uint8ClampedArray(len)]: zero-filled;
    a negative length is a RangeError.  Memory is unbounded: no allocation
    fails for its size. *)
Definition new_Float32Array (len : Z) : M Float32Array := λ σ,
  if (len <? 0)%Z then Throw RangeError σ
  else Ok (length (f32 σ))
          {| f32 := f32 σ ++ [replicate (Z.to_nat len) (Fin 0)];
             u8c := u8c σ; draws := draws σ |}.

Definition new_Uint8ClampedArray (len : Z) : M Uint8ClampedArray := λ σ,
  if (len <? 0)%Z then Throw RangeError σ
  else Ok (length (u8c σ))
          {| f32 := f32 σ;
             u8c := u8c σ ++ [replicate (Z.to_nat len) 0%Z];
             draws := draws σ |}.

(** [a[i]] as an operand of arithmetic: [undefined] out of range,
    hence [NaN]. *)
Definition f32_get (a : Float32Array) (i : nat) : M number := λ σ,
  Ok (default NaN (floats σ a !! i)) σ.

Definition u8_get (a : Uint8ClampedArray) (i : nat) : M number := λ σ,
  Ok (from_option (λ k, Fin (IZR k)) NaN (bytes σ a !! i)) σ.

(** [a[i] = v]: ignored out of range. *)
Definition f32_put (a : Float32Array) (i : nat) (v : number) : M unit := λ σ,
  Ok tt {| f32 := <[a := <[i := v]> (floats σ a)]> (f32 σ);
           u8c := u8c σ; draws := draws σ |}.

(** [a.set(vs, offset)]: a RangeError when the values do not fit. *)
Definition u8_set (a : Uint8ClampedArray) (vs : list number) (offset : nat)
  : M unit := λ σ,
  if (length (bytes σ a) <? offset + length vs)%nat then Throw RangeError σ
  else Ok tt {| f32 := f32 σ;
                u8c := <[a := list_inserts offset (ToUint8Clamp <$> vs)
                                           (bytes σ a)]> (u8c σ);
                draws := draws σ |}.

(** ** The platform *)

(** The pixels of a canvas, RGBA bytes by index (row-major). *)
Definition surface : Type := nat → Z.

Record Platform : Type := {
  (* does canvas.getContext("2d") return a context? *)
  getContext2d : bool;
  (* the value of the k-th call of Math.random *)
  Math_random : nat → R;
  (* ctx.filter = blur(r px); ctx.drawImage(src, 0, 0) on a w x h canvas
     that holds dst: the canvas afterwards *)
  drawImage : R → Z → Z → surface → surface → surface;
}.

Definition blank : surface := λ _, 0%Z.

Section Pipeline.

Context (P : Platform).

(** [canvas.getContext("2d")] followed by
    [if (!ctx) throw new Error("2D context not available")]. *)
Definition getContext : M unit := λ σ,
  if getContext2d P then Ok tt σ
  else Throw (Error "2D context not available") σ.

(** [Math.random()]. *)
Definition random : M number := λ σ,
  Ok (Fin (Math_random P (draws σ)))
     {| f32 := f32 σ; u8c := u8c σ; draws := S (draws σ) |}.

(** [new ImageData(data, sw, sh)]: the object shares [data]; [sw] and [sh]
    are [unsigned long]. *)
Definition new_ImageData (d : Uint8ClampedArray) (sw sh : Z) : M ImageData :=
  λ σ,
  let sw := (sw mod 2 ^ 32)%Z in
  let sh := (sh mod 2 ^ 32)%Z in
  let length := Z.of_nat (length (bytes σ d)) in
  if ((length =? 0) || negb (length mod 4 =? 0))%Z
  then Throw InvalidStateError σ
  else
    let length := (length / 4)%Z in
    if ((sw =? 0) || negb (length mod sw =? 0))%Z then Throw IndexSizeError σ
    else if negb (length / sw =? sh)%Z then Throw IndexSizeError σ
    else Ok {| data := d; width := sw; height := sh |} σ.

(** [ctx.putImageData(img, 0, 0)] on a fresh canvas of the size of [img]:
    the canvas holds the pixels of [img] (they are opaque at both call
    sites). *)
Definition putImageData (img : ImageData) : M surface := λ σ,
  Ok (λ k, default 0%Z (bytes σ (data img) !! k)) σ.

(** [ctx.getImageData(0, 0, sw, sh).data]: a fresh array; [sw] and [sh] are
    [[EnforceRange] long]; a rectangle of negative extent lies outside the
    canvas and reads transparent black. *)
Definition getImageData (c : surface) (sw sh : Z) : M Uint8ClampedArray :=
  λ σ,
  let long (z : Z) := ((- 2 ^ 31 <=? z) && (z <? 2 ^ 31))%Z in
  if negb (long sw && long sh) then Throw TypeError σ
  else if ((sw =? 0) || (sh =? 0))%Z then Throw IndexSizeError σ
  else
    let n := Z.to_nat (4 * Z.abs sw * Z.abs sh) in
    let pixels :=
      if ((0 <? sw) && (0 <? sh))%Z then c <$> seq 0 n
      else replicate n 0%Z in
    Ok (length (u8c σ))
       {| f32 := f32 σ; u8c := u8c σ ++ [pixels]; draws := draws σ |}.

(** Blur using offscreen canvas (lines 32-48): the canvas is drawn onto
    itself. *)
Definition blur (data : Uint8ClampedArray) (w h : Z) (r : R)
  : M Uint8ClampedArray :=
  getContext ;;
  img ← new_ImageData data w h ;
  canvas ← putImageData img ;
  getImageData (drawImage P r w h canvas canvas) w h.

(** Blur with separate source to include edges (lines 51-72): the source
    canvas is drawn onto an empty destination canvas. *)
Definition blurSeparate (data : Uint8ClampedArray) (w h : Z) (r : R)
  : M Uint8ClampedArray :=
  getContext ;;
  img ← new_ImageData data w h ;
  src ← putImageData img ;
  getContext ;;
  getImageData (drawImage P r w h src blank) w h.

(** *** Core image processing (lines 75-153) *)

(** The arithmetic of one iteration of each loop, as a function of the
    values the iteration reads. *)

(** Lines 90-102: from [px[i*4]], [px[i*4+1]], [px[i*4+2]] to what is stored
    in [R[i]], [G[i]], [B[i]] and [lum[i]]. *)
Definition toneGrade (params : FilmLookParams) (p0 p1 p2 : number)
  : number * number * number * number :=
  (let r0 := p0 / Fin 255 in
   let g0 := p1 / Fin 255 in
   let b0 := p2 / Fin 255 in
   let tc_r := Fin 1 / (Fin 1 + Math_exp (- Fin (toneA params) * (r0 - Fin 0.5))) in
   let tc_g := Fin 1 / (Fin 1 + Math_exp (- Fin (toneA params) * (g0 - Fin 0.5))) in
   let tc_b := Fin 1 / (Fin 1 + Math_exp (- Fin (toneA params) * (b0 - Fin 0.5))) in
   let l := Fin 0.2126 * tc_r + Fin 0.7152 * tc_g + Fin 0.0722 * tc_b in
   let shadowM := clamp ((Fin 0.5 - l) * Fin 2) in
   let highlightM := clamp ((l - Fin 0.5) * Fin 2) in
   (clamp (tc_r + shadowM * Fin (-0.05) + highlightM * Fin 0.08),
    clamp (tc_g + shadowM * Fin 0.0 + highlightM * Fin 0.04),
    clamp (tc_b + shadowM * Fin 0.05 + highlightM * Fin (-0.02)),
    l))%num.

(** Line 108: the mask value of a pixel. *)
Definition maskValue (params : FilmLookParams) (l : number) : number :=
  if gt l (Fin (glowThreshold params)) then Fin 255 else Fin 0.

(** Lines 116-124: the four values handed to [out.set]. *)
Definition combine (params : FilmLookParams)
    (Ri Gi Bi li glow0 glow1 glow2 rnd : number) : list number :=
  (let rr := Ri + (glow0 / Fin 255) * Fin (glowStrength params) in
   let gg := Gi + (glow1 / Fin 255) * Fin (glowStrength params) in
   let bb := Bi + (glow2 / Fin 255) * Fin (glowStrength params) in
   let noise := (rnd * Fin 2 - Fin 1) * Fin (grainStrength params) in
   let wt := Fin 0.7 + Fin 0.3 * li in
   let rr := clamp (rr + noise * wt) in
   let gg := clamp (gg + noise * wt) in
   let bb := clamp (bb + noise * wt) in
   [rr * Fin 255; gg * Fin 255; bb * Fin 255; Fin 255])%num.

(** Lines 132-147: the four values handed to [final.set]. *)
Definition softBlend (params : FilmLookParams)
    (o0 o1 o2 s0 s1 s2 : number) : list number :=
  (let r0 := o0 / Fin 255 in
   let g0 := o1 / Fin 255 in
   let b0 := o2 / Fin 255 in
   let r1 := s0 / Fin 255 in
   let g1 := s1 / Fin 255 in
   let b1 := s2 / Fin 255 in
   [(r0 * (Fin 1 - Fin (softFocusStrength params))
       + r1 * Fin (softFocusStrength params)) * Fin 255;
    (g0 * (Fin 1 - Fin (softFocusStrength params))
       + g1 * Fin (softFocusStrength params)) * Fin 255;
    (b0 * (Fin 1 - Fin (softFocusStrength params))
       + b1 * Fin (softFocusStrength params)) * Fin 255;
    Fin 255])%num.

(** Tone map & grade (lines 81-103). *)
Definition toneMapGrade (px : Uint8ClampedArray) (len : Z)
    (params : FilmLookParams)
  : M (Float32Array * Float32Array * Float32Array * Float32Array) :=
  R ← new_Float32Array len ;
  G ← new_Float32Array len ;
  B ← new_Float32Array len ;
  lum ← new_Float32Array len ;
  for_upto len (λ i,
    p0 ← u8_get px (i * 4) ;
    p1 ← u8_get px (i * 4 + 1) ;
    p2 ← u8_get px (i * 4 + 2) ;
    let '(r, g, b, l) := toneGrade params p0 p1 p2 in
    f32_put lum i l ;;
    f32_put R i r ;;
    f32_put G i g ;;
    f32_put B i b) ;;
  mret (R, G, B, lum).

(** Glow mask (lines 106-110). *)
Definition glowMask (lum : Float32Array) (len : Z) (params : FilmLookParams)
  : M Uint8ClampedArray :=
  mask ← new_Uint8ClampedArray (len * 4) ;
  for_upto len (λ i,
    l ← f32_get lum i ;
    let m := maskValue params l in
    u8_set mask [m; m; m; Fin 255] (i * 4)) ;;
  mret mask.

(** Combine + grain (lines 114-125). *)
Definition combineGrain (R G B lum : Float32Array) (glow : Uint8ClampedArray)
    (len : Z) (params : FilmLookParams) : M Uint8ClampedArray :=
  out ← new_Uint8ClampedArray (len * 4) ;
  for_upto len (λ i,
    Ri ← f32_get R i ;
    glow0 ← u8_get glow (i * 4) ;
    Gi ← f32_get G i ;
    glow1 ← u8_get glow (i * 4 + 1) ;
    Bi ← f32_get B i ;
    glow2 ← u8_get glow (i * 4 + 2) ;
    rnd ← random ;
    li ← f32_get lum i ;
    u8_set out (combine params Ri Gi Bi li glow0 glow1 glow2 rnd) (i * 4)) ;;
  mret out.

(** Soft focus with edge-aware blur (lines 128-152). *)
Definition softFocus (out : Uint8ClampedArray) (w h len : Z)
    (params : FilmLookParams) : M ImageData :=
  soft ← blurSeparate out w h (softFocusRadius params) ;
  final ← new_Uint8ClampedArray (len * 4) ;
  for_upto len (λ i,
    let ix := (i * 4)%nat in
    o0 ← u8_get out ix ;
    o1 ← u8_get out (ix + 1) ;
    o2 ← u8_get out (ix + 2) ;
    s0 ← u8_get soft ix ;
    s1 ← u8_get soft (ix + 1) ;
    s2 ← u8_get soft (ix + 2) ;
    u8_set final (softBlend params o0 o1 o2 s0 s1 s2) ix) ;;
  new_ImageData final w h.

Definition applyFilmLook (imgData : ImageData) (w h : Z)
    (params : FilmLookParams) : M ImageData :=
  let len := (w * h)%Z in
  let px := data imgData in
  '(R, G, B, lum) ← toneMapGrade px len params ;
  mask ← glowMask lum len params ;
  glow ← blur mask w h (glowBlur params) ;
  out ← combineGrain R G B lum glow len params ;
  softFocus out w h len params.

End Pipeline.

(** ** What the loops leave in the arrays *)

(** The array a loop has written up to index [k]: [f i] at the indices below
    [k], the initial [z] from there on. *)
Definition filled {A} (f : nat → A) (z : A) (n k : nat) : list A :=
  (f <$> seq 0 k) ++ replicate (n - k) z.

(** The same for a loop that writes a block of values per iteration. *)
Definition blocks {A} (q : nat → list A) (k : nat) : list A :=
  concat (q <$> seq 0 k).

Definition filled4 {A} (q : nat → list A) (z : A) (n k : nat) : list A :=
  blocks q k ++ replicate (4 * (n - k)) z.

(** The value read from a byte array, as the loops use it. *)
Definition sample (l : list Z) (k : nat) : number :=
  from_option (λ z, Fin (IZR z)) NaN (l !! k).

(** The pixel [i] of the byte array [px] after lines 90-102. *)
Definition gradedAt (params : FilmLookParams) (px : list Z) (i : nat)
  : number * number * number * number :=
  toneGrade params (sample px (i * 4)) (sample px (i * 4 + 1))
            (sample px (i * 4 + 2)).

(** The store [σ] after some allocations and draws. *)
Definition ext (σ : world) (fs : list (list number)) (us : list (list Z))
    (d : nat) : world :=
  {| f32 := f32 σ ++ fs; u8c := u8c σ ++ us; draws := (draws σ + d)%nat |}.

(** The four bytes [mask.set] writes for pixel [i], given the luminance
    array. *)
Definition maskAt (params : FilmLookParams) (lum : list number) (i : nat)
  : list Z :=
  let m := maskValue params (default NaN (lum !! i)) in
  ToUint8Clamp <$> [m; m; m; Fin 255].

(** The canvas after [putImageData] of the bytes [l]. *)
Definition canvasOf (l : list Z) : surface := λ k, default 0%Z (l !! k).

(** What [getImageData] reads from a canvas of [n] pixels. *)
Definition pixelsOf (c : surface) (n : nat) : list Z := c <$> seq 0 (n * 4).

(** The four bytes [out.set] writes for pixel [i]; [d0] draws of
    [Math.random] precede the loop. *)
Definition combineAt (P : Platform) (params : FilmLookParams)
    (Rv Gv Bv Lv : list number) (glow : list Z) (d0 : nat) (i : nat)
  : list Z :=
  ToUint8Clamp <$>
    combine params (default NaN (Rv !! i)) (default NaN (Gv !! i))
      (default NaN (Bv !! i)) (default NaN (Lv !! i))
      (sample glow (i * 4)) (sample glow (i * 4 + 1))
      (sample glow (i * 4 + 2)) (Fin (Math_random P (d0 + i))).

(** The four bytes [final.set] writes for pixel [i]. *)
Definition blendAt (params : FilmLookParams) (out soft : list Z) (i : nat)
  : list Z :=
  ToUint8Clamp <$>
    softBlend params (sample out (i * 4)) (sample out (i * 4 + 1))
      (sample out (i * 4 + 2)) (sample soft (i * 4))
      (sample soft (i * 4 + 1)) (sample soft (i * 4 + 2)).

(** The contents of the arrays [applyFilmLook] allocates, in the order of
    allocation, for the input bytes [px] and [d0] earlier draws of
    [Math.random]. *)
Section Denotation.

Context (P : Platform) (params : FilmLookParams) (w h : Z) (px : list Z)
  (d0 : nat).

Definition pixels : nat := Z.to_nat (w * h).

Definition gradedR : list number :=
  (λ i, (gradedAt params px i).1.1.1) <$> seq 0 pixels.
Definition gradedG : list number :=
  (λ i, (gradedAt params px i).1.1.2) <$> seq 0 pixels.
Definition gradedB : list number :=
  (λ i, (gradedAt params px i).1.2) <$> seq 0 pixels.
Definition lumOf : list number :=
  (λ i, (gradedAt params px i).2) <$> seq 0 pixels.

Definition maskOf : list Z := blocks (maskAt params lumOf) pixels.

Definition glowOf : list Z :=
  pixelsOf (drawImage P (glowBlur params) w h (canvasOf maskOf)
                      (canvasOf maskOf)) pixels.

Definition outOf : list Z :=
  blocks (combineAt P params gradedR gradedG gradedB lumOf glowOf d0) pixels.

Definition softOf : list Z :=
  pixelsOf (drawImage P (softFocusRadius params) w h (canvasOf outOf) blank)
           pixels.

Definition finalOf : list Z := blocks (blendAt params outOf softOf) pixels.

End Denotation.

(** ** The tone and grade step in the words of the specification (4.2) *)

Definition clamp01 (x : R) : R :=
  if Rlt_dec x 0 then 0 else if Rlt_dec 1 x then 1 else x.

Definition toneCurve (a c : R) : R := 1 / (1 + exp (- a * (c - 0.5))).

Definition luma (tcR tcG tcB : R) : R :=
  0.2126 * tcR + 0.7152 * tcG + 0.0722 * tcB.

Definition shadowMask (l : R) : R := clamp01 ((0.5 - l) * 2).
Definition highlightMask (l : R) : R := clamp01 ((l - 0.5) * 2).

Definition gradedRed (tcR l : R) : R :=
  clamp01 (tcR + shadowMask l * (-0.05) + highlightMask l * 0.08).
Definition gradedGreen (tcG l : R) : R :=
  clamp01 (tcG + shadowMask l * 0 + highlightMask l * 0.04).
Definition gradedBlue (tcB l : R) : R :=
  clamp01 (tcB + shadowMask l * 0.05 + highlightMask l * (-0.02)).

(** ** Vocabulary of the statements *)

(** A valid input: the dimensions passed are those of the image, positive
    and within the platform's [long]; the pixel array is live and holds
    [w * h * 4] bytes. *)
Definition valid_input (σ : world) (imgData : ImageData) (w h : Z) : Prop :=
  w = width imgData ∧ h = height imgData ∧
  (0 < w < 2 ^ 31)%Z ∧ (0 < h < 2 ^ 31)%Z ∧
  (data imgData < length (u8c σ))%nat ∧
  length (bytes σ (data imgData)) = Z.to_nat (w * h * 4).

(** The 8-bit RGBA pixel [i] of three float channel arrays: what
    [set([r * 255, g * 255, b * 255, 255], i * 4)] stores. *)
Definition to8bit (Rv Gv Bv : list number) (i : nat) : list Z :=
  ToUint8Clamp <$>
    [(default NaN (Rv !! i) * Fin 255)%num;
     (default NaN (Gv !! i) * Fin 255)%num;
     (default NaN (Bv !! i) * Fin 255)%num;
     Fin 255].

(** A platform that differs from [P] in the values of [Math.random] only. *)
Definition with_random (P : Platform) (rnd : nat → R) : Platform :=
  {| getContext2d := getContext2d P;
     Math_random := rnd;
     drawImage := drawImage P |}.

(** Every array of [σ0] is in [σ], at its handle and with its contents. *)
Definition preserved (σ0 σ : world) : Prop :=
  f32 σ0 `prefix_of` f32 σ ∧ u8c σ0 `prefix_of` u8c σ.

(** [m] writes to no array of [σ0], however it ends, and returns a value
    that satisfies [Q]. *)
Definition keeps (σ0 : world) {A} (m : M A) (Q : A → Prop) : Prop :=
  ∀ σ, preserved σ0 σ →
    match m σ with
    | Ok a σ' => preserved σ0 σ' ∧ Q a
    | Throw _ σ' => preserved σ0 σ'
    end.

(** ** Examples *)

(** A platform on which a context is available, [Math.random] yields [1/2],
    and the filter paints the source as it is. *)
Definition unfiltered : Platform :=
  {| getContext2d := true;
     Math_random := λ _, 0.5;
     drawImage := λ _ _ _ src _, src |}.

(** A store that holds one mid-grey pixel, and the 1 x 1 image on it. *)
Definition grey_world : world :=
  {| f32 := []; u8c := [[128; 128; 128; 255]%Z]; draws := 0 |}.

Definition grey_image : ImageData := {| data := 0; width := 1; height := 1 |}.

(** A store whose only array holds two pixels, and the 2 x 1 image on it. *)
Definition two_pixel_world : world :=
  {| f32 := [];
     u8c := [[10; 20; 30; 255; 40; 50; 60; 255]%Z];
     draws := 0 |}.

Definition two_pixel_image : ImageData :=
  {| data := 0; width := 2; height := 1 |}.



(** A store with a luminance array of one pixel, of value [0.7]. *)
Definition lum_world : world :=
  {| f32 := [[Fin 0.7]]; u8c := []; draws := 0 |}.

(** A store after the tone stage of one mid-grey pixel, with a glow array:
    the Float32Arrays R, G, B and lum at 0..3, the glow bytes at 0. *)
Definition graded_world : world :=
  {| f32 := [[Fin 0.5]; [Fin 0.5]; [Fin 0.5]; [Fin 0.5]];
     u8c := [[0; 0; 0; 255]%Z];
     draws := 0 |}.

(** The default parameters with the glow threshold at 1. *)
Definition glowOff : FilmLookParams := {|
  toneA := 5.0;
  glowThreshold := 1;
  glowStrength := 0.4;
  glowBlur := 40;
  grainStrength := 0.02;
  softFocusStrength := 0.3;
  softFocusRadius := 10;
|}.

(** Parameters that switch glow, grain and soft focus off. *)
Definition neutral : FilmLookParams := {|
  toneA := 5.0;
  glowThreshold := 0.7;
  glowStrength := 0;
  glowBlur := 40;
  grainStrength := 0;
  softFocusStrength := 0;
  softFocusRadius := 10;
|}.

(** ** Proof steps *)

(** Read a slot of a literal list of arrays: [default [] ([a; b] !! 1)]
    becomes [b]. *)
Ltac slot := cbn [lookup list_lookup default from_option Datatypes.id].

(** ** Vocabulary of the further properties *)

(** The four bytes of pixel [i] of an RGBA byte array. *)
Definition pixelAt (l : list Z) (i : nat) : list Z := take 4 (drop (i * 4) l).

(** A byte, as a [Uint8ClampedArray] holds it. *)
Definition byte (z : Z) : Prop := (0 ≤ z ≤ 255)%Z.

(** Two byte arrays that agree on the colour channels of every pixel
    (wherever the index is not that of an alpha byte). *)
Definition same_colours (l1 l2 : list Z) : Prop :=
  ∀ k, (k mod 4 ≠ 3)%nat → l1 !! k = l2 !! k.

(** The two-pixel store with other alpha bytes. *)
Definition translucent_world : world :=
  {| f32 := [];
     u8c := [[10; 20; 30; 0; 40; 50; 60; 77]%Z];
     draws := 0 |}.


(** ** The sliders (lines 244-259 and 304-309) *)

(** [keyof FilmLookParams]. *)
Inductive ParamKey : Type :=
  | key_toneA
  | key_glowThreshold
  | key_glowStrength
  | key_glowBlur
  | key_grainStrength
  | key_softFocusStrength
  | key_softFocusRadius.

(** The update of [onChange]: [{ ...p, [key]: value }]. *)
Definition setParam (p : FilmLookParams) (key : ParamKey) (value : R)
  : FilmLookParams :=
  match key with
  | key_toneA =>
      {| toneA := value; glowThreshold := glowThreshold p;
         glowStrength := glowStrength p; glowBlur := glowBlur p;
         grainStrength := grainStrength p;
         softFocusStrength := softFocusStrength p;
         softFocusRadius := softFocusRadius p |}
  | key_glowThreshold =>
      {| toneA := toneA p; glowThreshold := value;
         glowStrength := glowStrength p; glowBlur := glowBlur p;
         grainStrength := grainStrength p;
         softFocusStrength := softFocusStrength p;
         softFocusRadius := softFocusRadius p |}
  | key_glowStrength =>
      {| toneA := toneA p; glowThreshold := glowThreshold p;
         glowStrength := value; glowBlur := glowBlur p;
         grainStrength := grainStrength p;
         softFocusStrength := softFocusStrength p;
         softFocusRadius := softFocusRadius p |}
  | key_glowBlur =>
      {| toneA := toneA p; glowThreshold := glowThreshold p;
         glowStrength := glowStrength p; glowBlur := value;
         grainStrength := grainStrength p;
         softFocusStrength := softFocusStrength p;
         softFocusRadius := softFocusRadius p |}
  | key_grainStrength =>
      {| toneA := toneA p; glowThreshold := glowThreshold p;
         glowStrength := glowStrength p; glowBlur := glowBlur p;
         grainStrength := value;
         softFocusStrength := softFocusStrength p;
         softFocusRadius := softFocusRadius p |}
  | key_softFocusStrength =>
      {| toneA := toneA p; glowThreshold := glowThreshold p;
         glowStrength := glowStrength p; glowBlur := glowBlur p;
         grainStrength := grainStrength p;
         softFocusStrength := value;
         softFocusRadius := softFocusRadius p |}
  | key_softFocusRadius =>
      {| toneA := toneA p; glowThreshold := glowThreshold p;
         glowStrength := glowStrength p; glowBlur := glowBlur p;
         grainStrength := grainStrength p;
         softFocusStrength := softFocusStrength p;
         softFocusRadius := value |}
  end.

(** A lit and an unlit pixel of the glow mask. *)
Definition lit : list Z := [255; 255; 255; 255]%Z.
Definition unlit : list Z := [0; 0; 0; 255]%Z.

(** A store with a luminance array of three pixels, the last one [NaN]. *)
Definition lum3_world : world :=
  {| f32 := [[Fin 0.2; Fin 0.9; NaN]]; u8c := []; draws := 0 |}.

(** The order of numbers; [NaN] compares with itself only. *)
Definition nle (a b : number) : Prop :=
  match a, b with
  | Fin x, Fin y => x <= y
  | NaN, NaN => True
  | _, _ => False
  end.

(** What [blurSeparate] paints for soft focus from the bytes [out]. *)
Definition softened (P : Platform) (params : FilmLookParams) (w h : Z)
    (out : list Z) : surface :=
  drawImage P (softFocusRadius params) w h (canvasOf out) blank.

(** A platform whose filter paints mid-grey everywhere. *)
Definition greying : Platform :=
  {| getContext2d := true;
     Math_random := λ _, 0.5;
     drawImage := λ _ _ _ _ _ _, 128%Z |}.

(** A store whose only array is one opaque pixel. *)
Definition pixel_world : world :=
  {| f32 := []; u8c := [[200; 100; 0; 255]%Z]; draws := 0 |}.

(** [x] lies between [a] and [b], in either order. *)
Definition between (a b x : Z) : Prop := (Z.min a b ≤ x ≤ Z.max a b)%Z.

(** A store whose only array is one pixel cut short after two bytes. *)
Definition short_world : world :=
  {| f32 := []; u8c := [[10; 20]%Z]; draws := 0 |}.

(** A store after the tone stage of one pixel whose bytes were missing. *)
Definition nan_world : world :=
  {| f32 := [[NaN]; [NaN]; [NaN]; [NaN]];
     u8c := [[255; 255; 255; 255]%Z];
     draws := 0 |}.

(** A store whose only array holds three bytes, one short of a pixel. *)
Definition ragged_world : world :=
  {| f32 := []; u8c := [[1; 2; 3]%Z]; draws := 0 |}.

(** ** The size of an uploaded image ([onFile], lines 215-218) *)

(** [Math.round]: the nearest integer, a tie going upwards. *)
Definition Math_round (x : R) : Z := Int_part (x + / 2).

(** The size [onFile] scales an image of [width] x [height] to (both are
    positive, as those of an [ImageBitmap] are). *)
Definition scaledSize (width height : Z) : Z * Z :=
  let maxSize := 1600 in
  let scale := Rmin 1 (maxSize / Rmax (IZR width) (IZR height)) in
  let w := Math_round (IZR width * scale) in
  let h := Math_round (IZR height * scale) in
  (w, h).

(** * Properties *)

Section Arrays.

Context {A : Type}.
Implicit Types (f : nat → A) (q : nat → list A) (z : A) (l : list A).

Lemma filled_0 f z n : filled f z n 0 = replicate n z.
Proof. unfold filled. simpl. by rewrite Nat.sub_0_r. Qed.

Lemma filled_full f z n : filled f z n n = f <$> seq 0 n.
Proof. unfold filled. by rewrite Nat.sub_diag, app_nil_r. Qed.

Lemma filled_step f z n k :
  (k < n)%nat → <[k := f k]> (filled f z n k) = filled f z n (S k).
Proof.
  intros Hk. unfold filled.
  replace (n - k)%nat with (S (n - S k)) by lia.
  rewrite seq_S, fmap_app, <- app_assoc. simpl.
  rewrite insert_app_r_alt by (rewrite length_fmap, length_seq; lia).
  rewrite length_fmap, length_seq, Nat.sub_diag. done.
Qed.

Lemma lookup_fmap_seq f n i :
  (i < n)%nat → (f <$> seq 0 n) !! i = Some (f i).
Proof.
  intros Hi. rewrite list_lookup_fmap, lookup_seq_lt by done. done.
Qed.

Lemma length_blocks q k :
  (∀ i, length (q i) = 4%nat) → length (blocks q k) = (k * 4)%nat.
Proof.
  intros Hq. unfold blocks. induction k as [|k IH]; [done|].
  rewrite seq_S, fmap_app, concat_app, length_app, IH. simpl.
  rewrite app_nil_r, Hq. lia.
Qed.

Lemma blocks_S q k : blocks q (S k) = blocks q k ++ q k.
Proof.
  unfold blocks. rewrite seq_S, fmap_app, concat_app. simpl.
  by rewrite app_nil_r.
Qed.

Lemma filled4_0 q z n : filled4 q z n 0 = replicate (n * 4) z.
Proof. unfold filled4. simpl. f_equal. lia. Qed.

Lemma filled4_full q z n : filled4 q z n n = blocks q n.
Proof.
  unfold filled4. by rewrite Nat.sub_diag, Nat.mul_0_r, app_nil_r.
Qed.

Lemma length_filled4 q z n k :
  (∀ i, length (q i) = 4%nat) → (k ≤ n)%nat →
  length (filled4 q z n k) = (n * 4)%nat.
Proof.
  intros Hq Hk. unfold filled4.
  rewrite length_app, length_blocks, length_replicate by done. lia.
Qed.

Lemma filled4_step q z n k :
  (∀ i, length (q i) = 4%nat) → (k < n)%nat →
  list_inserts (k * 4) (q k) (filled4 q z n k) = filled4 q z n (S k).
Proof.
  intros Hq Hk. unfold filled4.
  replace (k * 4)%nat with (length (blocks q k) + 0)%nat
    by (rewrite length_blocks by done; lia).
  rewrite list_inserts_app_r.
  replace (4 * (n - k))%nat with (4 + 4 * (n - S k))%nat by lia.
  rewrite replicate_add, list_inserts_0_r by (by rewrite Hq).
  by rewrite blocks_S, <- app_assoc.
Qed.

Lemma lookup_blocks q n i c :
  (∀ i, length (q i) = 4%nat) → (i < n)%nat → (c < 4)%nat →
  blocks q n !! (i * 4 + c)%nat = q i !! c.
Proof.
  intros Hq Hi Hc. induction n as [|n IH]; [lia|].
  rewrite blocks_S. destruct (decide (i = n)) as [->|Hne].
  - rewrite lookup_app_r by (rewrite length_blocks by done; lia).
    rewrite length_blocks by done. f_equal. lia.
  - rewrite lookup_app_l by (rewrite length_blocks by done; lia).
    apply IH. lia.
Qed.

End Arrays.

(** ** Running the monad *)

Lemma bind_Ok {A B} (m : M A) (k : A → M B) σ a σ' :
  m σ = Ok a σ' → (m ≫= k) σ = k a σ'.
Proof. intros H. unfold mbind, M_bind. by rewrite H. Qed.

Lemma bind_Throw {A B} (m : M A) (k : A → M B) σ e σ' :
  m σ = Throw e σ' → (m ≫= k) σ = Throw e σ'.
Proof. intros H. unfold mbind, M_bind. by rewrite H. Qed.

(** A loop whose [k]-th iteration takes the store [st k] to [st (k + 1)]. *)
Lemma iterate_states (st : nat → world) (body : nat → M unit) n i :
  (∀ k, (i ≤ k < i + n)%nat → body k (st k) = Ok tt (st (k + 1)%nat)) →
  iterate n i body (st i) = Ok tt (st (i + n)%nat).
Proof.
  revert i. induction n as [|n IH]; intros i Hstep; simpl.
  - by rewrite Nat.add_0_r.
  - rewrite (bind_Ok _ _ _ tt (st (i + 1)%nat)) by (apply Hstep; lia).
    replace (i + 1)%nat with (S i) by lia.
    rewrite IH; [do 2 f_equal; lia|].
    intros k Hk. apply Hstep. lia.
Qed.

(** Two loops whose bodies agree run alike. *)
Lemma iterate_ext (body1 body2 : nat → M unit) n i σ :
  (∀ k σ, body1 k σ = body2 k σ) →
  iterate n i body1 σ = iterate n i body2 σ.
Proof.
  intros Hb. revert i σ. induction n as [|n IH]; intros i σ; simpl; [done|].
  unfold mbind, M_bind. rewrite Hb. destruct (body2 i σ); [apply IH|done].
Qed.

(** The store seen through the handles the pipeline allocates. *)
Lemma lookup_app_at {A} (l1 l2 : list A) j h :
  h = (length l1 + j)%nat → (l1 ++ l2) !! h = l2 !! j.
Proof.
  intros ->. rewrite lookup_app_r by lia. f_equal. lia.
Qed.

Lemma insert_app_at {A} (l1 l2 : list A) j h x :
  h = (length l1 + j)%nat → <[h := x]> (l1 ++ l2) = l1 ++ <[j := x]> l2.
Proof. intros ->. apply insert_app_r. Qed.

(** ** The store after allocations *)

Lemma ext_nil σ : ext σ [] [] 0 = σ.
Proof.
  destruct σ. unfold ext. simpl. by rewrite !app_nil_r, Nat.add_0_r.
Qed.

Lemma ext_ext σ fs us d fs' us' d' :
  ext (ext σ fs us d) fs' us' d' = ext σ (fs ++ fs') (us ++ us') (d + d').
Proof.
  unfold ext. simpl. by rewrite <- !app_assoc, Nat.add_assoc.
Qed.

Lemma floats_ext σ fs us d j h :
  h = (length (f32 σ) + j)%nat →
  floats (ext σ fs us d) h = default [] (fs !! j).
Proof. intros ->. unfold floats. simpl. by rewrite (lookup_app_at _ _ j). Qed.

Lemma bytes_ext σ fs us d j h :
  h = (length (u8c σ) + j)%nat →
  bytes (ext σ fs us d) h = default [] (us !! j).
Proof. intros ->. unfold bytes. simpl. by rewrite (lookup_app_at _ _ j). Qed.

Lemma bytes_ext_old σ fs us d a :
  (a < length (u8c σ))%nat → bytes (ext σ fs us d) a = bytes σ a.
Proof. intros Ha. unfold bytes. simpl. by rewrite lookup_app_l. Qed.

Lemma floats_ext_old σ fs us d a :
  (a < length (f32 σ))%nat → floats (ext σ fs us d) a = floats σ a.
Proof. intros Ha. unfold floats. simpl. by rewrite lookup_app_l. Qed.

(** A handle that is not live reads as the empty array, before and after. *)
Lemma bytes_ext_nil σ fs d a : bytes (ext σ fs [] d) a = bytes σ a.
Proof. unfold bytes. simpl. by rewrite app_nil_r. Qed.

Lemma new_Float32Array_run len σ fs us d :
  (0 ≤ len)%Z →
  new_Float32Array len (ext σ fs us d) =
    Ok (length (f32 σ) + length fs)%nat
       (ext σ (fs ++ [replicate (Z.to_nat len) (Fin 0)]) us d).
Proof.
  intros Hlen. unfold new_Float32Array.
  destruct (Z.ltb_spec len 0); [lia|].
  unfold ext. simpl. by rewrite length_app, <- app_assoc.
Qed.

Lemma new_Uint8ClampedArray_run len σ fs us d :
  (0 ≤ len)%Z →
  new_Uint8ClampedArray len (ext σ fs us d) =
    Ok (length (u8c σ) + length us)%nat
       (ext σ fs (us ++ [replicate (Z.to_nat len) 0%Z]) d).
Proof.
  intros Hlen. unfold new_Uint8ClampedArray.
  destruct (Z.ltb_spec len 0); [lia|].
  unfold ext. simpl. by rewrite length_app, <- app_assoc.
Qed.

Lemma u8_get_run a i σ : u8_get a i σ = Ok (sample (bytes σ a) i) σ.
Proof. done. Qed.

Lemma f32_get_run a i σ : f32_get a i σ = Ok (default NaN (floats σ a !! i)) σ.
Proof. done. Qed.

Lemma f32_put_run σ fs us d j h i v :
  h = (length (f32 σ) + j)%nat →
  f32_put h i v (ext σ fs us d) =
    Ok tt (ext σ (<[j := <[i := v]> (default [] (fs !! j))]> fs) us d).
Proof.
  intros ->. unfold f32_put, ext, floats. cbn [f32 u8c draws].
  by rewrite (lookup_app_at _ _ j), (insert_app_at _ _ j).
Qed.

Lemma u8_set_run σ fs us d j h vs off :
  h = (length (u8c σ) + j)%nat →
  (off + length vs ≤ length (default [] (us !! j)))%nat →
  u8_set h vs off (ext σ fs us d) =
    Ok tt (ext σ fs
             (<[j := list_inserts off (ToUint8Clamp <$> vs)
                                  (default [] (us !! j))]> us) d).
Proof.
  intros -> Hfit. unfold u8_set. rewrite (bytes_ext _ _ _ _ j) by done.
  destruct (Nat.ltb_spec (length (default [] (us !! j))) (off + length vs));
    [lia|].
  unfold ext. cbn [f32 u8c draws]. by rewrite (insert_app_at _ _ j).
Qed.

Lemma toneMapGrade_run px len params σ :
  (0 ≤ len)%Z →
  toneMapGrade px len params σ =
    Ok (length (f32 σ), length (f32 σ) + 1, length (f32 σ) + 2,
        length (f32 σ) + 3)%nat
       (ext σ
          [ (λ i, (gradedAt params (bytes σ px) i).1.1.1) <$> seq 0 (Z.to_nat len);
            (λ i, (gradedAt params (bytes σ px) i).1.1.2) <$> seq 0 (Z.to_nat len);
            (λ i, (gradedAt params (bytes σ px) i).1.2) <$> seq 0 (Z.to_nat len);
            (λ i, (gradedAt params (bytes σ px) i).2) <$> seq 0 (Z.to_nat len) ]
          [] 0).
Proof.
  intros Hlen. unfold toneMapGrade.
  set (n := Z.to_nat len). set (z := Fin 0).
  rewrite <- (ext_nil σ) at 1.
  do 4 (erewrite bind_Ok by (by apply new_Float32Array_run)).
  cbn [length app]. rewrite Nat.add_0_r.
  set (Rf i := (gradedAt params (bytes σ px) i).1.1.1).
  set (Gf i := (gradedAt params (bytes σ px) i).1.1.2).
  set (Bf i := (gradedAt params (bytes σ px) i).1.2).
  set (Lf i := (gradedAt params (bytes σ px) i).2).
  set (st k := ext σ
    [filled Rf z n k; filled Gf z n k; filled Bf z n k; filled Lf z n k] [] 0).
  erewrite bind_Ok; cycle 1.
  { unfold for_upto. fold n.
    match goal with |- iterate _ _ _ ?s = _ => replace s with (st 0%nat) end.
    2:{ unfold st. by rewrite !filled_0. }
    apply iterate_states. intros k Hk. unfold st.
    do 3 (erewrite bind_Ok by apply u8_get_run).
    rewrite bytes_ext_nil. fold (gradedAt params (bytes σ px) k).
    assert (ER : Rf k = (gradedAt params (bytes σ px) k).1.1.1) by done.
    assert (EG : Gf k = (gradedAt params (bytes σ px) k).1.1.2) by done.
    assert (EB : Bf k = (gradedAt params (bytes σ px) k).1.2) by done.
    assert (EL : Lf k = (gradedAt params (bytes σ px) k).2) by done.
    destruct (gradedAt params (bytes σ px) k) as [[[r g] b] l].
    cbn [fst snd] in ER, EG, EB, EL. subst r g b l.
    erewrite bind_Ok by (by apply (f32_put_run _ _ _ _ 3)).
    erewrite bind_Ok by (apply (f32_put_run _ _ _ _ 0); lia).
    erewrite bind_Ok by (by apply (f32_put_run _ _ _ _ 1)).
    rewrite (f32_put_run _ _ _ _ 2) by done.
    replace (k + 1)%nat with (S k) by lia.
    rewrite <- (filled_step Rf), <- (filled_step Gf), <- (filled_step Bf),
      <- (filled_step Lf) by lia.
    done. }
  unfold st. rewrite !filled_full. done.
Qed.

Lemma floats_ext_nil σ us d a : floats (ext σ [] us d) a = floats σ a.
Proof. unfold floats. simpl. by rewrite app_nil_r. Qed.

Lemma length_maskAt params lum i : length (maskAt params lum i) = 4%nat.
Proof. done. Qed.

Lemma length_combineAt P params Rv Gv Bv Lv glow d0 i :
  length (combineAt P params Rv Gv Bv Lv glow d0 i) = 4%nat.
Proof. done. Qed.

Lemma length_blendAt params out soft i :
  length (blendAt params out soft i) = 4%nat.
Proof. done. Qed.

(** ** The stages, run *)

Lemma glowMask_run lum len params σ :
  (0 ≤ len)%Z →
  glowMask lum len params σ =
    Ok (length (u8c σ))
       (ext σ [] [blocks (maskAt params (floats σ lum)) (Z.to_nat len)] 0).
Proof.
  intros Hlen. unfold glowMask.
  set (n := Z.to_nat len). set (q := maskAt params (floats σ lum)).
  rewrite <- (ext_nil σ) at 1.
  erewrite bind_Ok by (apply new_Uint8ClampedArray_run; lia).
  cbn [length app]. rewrite Nat.add_0_r.
  replace (Z.to_nat (len * 4)) with (n * 4)%nat by lia.
  set (st k := ext σ [] [filled4 q 0%Z n k] 0).
  erewrite bind_Ok; cycle 1.
  { unfold for_upto. fold n.
    match goal with |- iterate _ _ _ ?s = _ => replace s with (st 0%nat) end.
    2:{ unfold st. by rewrite filled4_0. }
    apply iterate_states. intros k Hk. unfold st.
    erewrite bind_Ok by apply f32_get_run.
    rewrite floats_ext_nil.
    rewrite (u8_set_run _ _ _ _ 0); [|lia|].
    2:{ slot. cbn [length].
        rewrite length_filled4 by (done || lia). lia. }
    replace (k + 1)%nat with (S k) by lia.
    rewrite <- (filled4_step q) by (done || lia). done. }
  unfold st. rewrite filled4_full. done.
Qed.

Lemma getContext_run P σ : getContext2d P = true → getContext P σ = Ok tt σ.
Proof. intros H. unfold getContext. by rewrite H. Qed.

Lemma new_ImageData_run d w h σ :
  (0 < w < 2 ^ 31)%Z → (0 < h < 2 ^ 31)%Z →
  length (bytes σ d) = (Z.to_nat (w * h) * 4)%nat →
  new_ImageData d w h σ = Ok {| data := d; width := w; height := h |} σ.
Proof.
  intros Hw Hh Hlen. unfold new_ImageData. rewrite Hlen.
  assert (Hwh : (0 < w * h)%Z) by nia.
  rewrite Nat2Z.inj_mul, Z2Nat.id by lia. change (Z.of_nat 4) with 4%Z.
  rewrite (Z.mod_small w), (Z.mod_small h) by lia.
  rewrite Z_mod_mult, Z_div_mult by lia.
  destruct (Z.eqb_spec (w * h * 4) 0); [lia|].
  rewrite (Z.mul_comm w h), Z_mod_mult, Z_div_mult by lia.
  destruct (Z.eqb_spec w 0); [lia|].
  by rewrite !Z.eqb_refl.
Qed.

Lemma getImageData_run c w h σ fs us d :
  (0 < w < 2 ^ 31)%Z → (0 < h < 2 ^ 31)%Z →
  getImageData c w h (ext σ fs us d) =
    Ok (length (u8c σ) + length us)%nat
       (ext σ fs (us ++ [pixelsOf c (Z.to_nat (w * h))]) d).
Proof.
  intros Hw Hh. unfold getImageData.
  assert (Hwh : (0 < w * h)%Z) by nia.
  destruct (Z.leb_spec (- 2 ^ 31) w); [|lia].
  destruct (Z.leb_spec (- 2 ^ 31) h); [|lia].
  destruct (Z.ltb_spec w (2 ^ 31)); [|lia].
  destruct (Z.ltb_spec h (2 ^ 31)); [|lia].
  destruct (Z.eqb_spec w 0); [lia|].
  destruct (Z.eqb_spec h 0); [lia|].
  destruct (Z.ltb_spec 0 w); [|lia].
  destruct (Z.ltb_spec 0 h); [|lia].
  cbn [andb orb negb]. unfold ext, pixelsOf. cbn [f32 u8c draws].
  rewrite length_app, <- app_assoc.
  replace (Z.to_nat (4 * Z.abs w * Z.abs h)) with (Z.to_nat (w * h) * 4)%nat
    by (rewrite !Z.abs_eq by lia; lia).
  done.
Qed.

Lemma blur_run P dt w h r σ :
  getContext2d P = true →
  (0 < w < 2 ^ 31)%Z → (0 < h < 2 ^ 31)%Z →
  length (bytes σ dt) = (Z.to_nat (w * h) * 4)%nat →
  blur P dt w h r σ =
    Ok (length (u8c σ))
       (ext σ [] [pixelsOf (drawImage P r w h (canvasOf (bytes σ dt))
                                      (canvasOf (bytes σ dt)))
                           (Z.to_nat (w * h))] 0).
Proof.
  intros Hctx Hw Hh Hlen. unfold blur.
  erewrite bind_Ok by (by apply getContext_run).
  erewrite bind_Ok by (by apply new_ImageData_run).
  erewrite bind_Ok by reflexivity.
  rewrite <- (ext_nil σ) at 1.
  rewrite getImageData_run by done.
  cbn [length app data]. rewrite Nat.add_0_r. done.
Qed.

Lemma blurSeparate_run P dt w h r σ :
  getContext2d P = true →
  (0 < w < 2 ^ 31)%Z → (0 < h < 2 ^ 31)%Z →
  length (bytes σ dt) = (Z.to_nat (w * h) * 4)%nat →
  blurSeparate P dt w h r σ =
    Ok (length (u8c σ))
       (ext σ [] [pixelsOf (drawImage P r w h (canvasOf (bytes σ dt)) blank)
                           (Z.to_nat (w * h))] 0).
Proof.
  intros Hctx Hw Hh Hlen. unfold blurSeparate.
  erewrite bind_Ok by (by apply getContext_run).
  erewrite bind_Ok by (by apply new_ImageData_run).
  erewrite bind_Ok by reflexivity.
  erewrite bind_Ok by (by apply getContext_run).
  rewrite <- (ext_nil σ) at 1.
  rewrite getImageData_run by done.
  cbn [length app data]. rewrite Nat.add_0_r. done.
Qed.

Lemma random_run P σ fs us d :
  random P (ext σ fs us d) =
    Ok (Fin (Math_random P (draws σ + d))) (ext σ fs us (S d)).
Proof. unfold random, ext. cbn [f32 u8c draws]. by rewrite Nat.add_succ_r. Qed.

Lemma length_combine params Ri Gi Bi li g0 g1 g2 rnd :
  length (combine params Ri Gi Bi li g0 g1 g2 rnd) = 4%nat.
Proof. done. Qed.

Lemma length_softBlend params o0 o1 o2 s0 s1 s2 :
  length (softBlend params o0 o1 o2 s0 s1 s2) = 4%nat.
Proof. done. Qed.

Lemma combineGrain_run P (aR aG aB lum glow : nat) len params σ :
  (0 ≤ len)%Z →
  (glow < length (u8c σ))%nat →
  combineGrain P aR aG aB lum glow len params σ =
    Ok (length (u8c σ))
       (ext σ []
          [blocks (combineAt P params (floats σ aR) (floats σ aG) (floats σ aB)
                             (floats σ lum) (bytes σ glow) (draws σ))
                  (Z.to_nat len)]
          (Z.to_nat len)).
Proof.
  intros Hlen Hglow. unfold combineGrain.
  set (n := Z.to_nat len).
  set (q := combineAt P params (floats σ aR) (floats σ aG) (floats σ aB)
                      (floats σ lum) (bytes σ glow) (draws σ)).
  rewrite <- (ext_nil σ) at 1.
  erewrite bind_Ok by (apply new_Uint8ClampedArray_run; lia).
  cbn [length app]. rewrite Nat.add_0_r.
  replace (Z.to_nat (len * 4)) with (n * 4)%nat by lia.
  set (st k := ext σ [] [filled4 q 0%Z n k] k).
  erewrite bind_Ok; cycle 1.
  { unfold for_upto. fold n.
    match goal with |- iterate _ _ _ ?s = _ => replace s with (st 0%nat) end.
    2:{ unfold st. by rewrite filled4_0. }
    apply iterate_states. intros k Hk. unfold st.
    erewrite bind_Ok by apply f32_get_run.
    erewrite bind_Ok by apply u8_get_run.
    erewrite bind_Ok by apply f32_get_run.
    erewrite bind_Ok by apply u8_get_run.
    erewrite bind_Ok by apply f32_get_run.
    erewrite bind_Ok by apply u8_get_run.
    erewrite bind_Ok by apply random_run.
    erewrite bind_Ok by apply f32_get_run.
    rewrite !floats_ext_nil, !bytes_ext_old by done.
    rewrite (u8_set_run _ _ _ _ 0); [|lia|].
    2:{ slot.
        rewrite length_filled4 by (done || lia).
        rewrite ?length_combine, ?length_softBlend. lia. }
    replace (k + 1)%nat with (S k) by lia.
    rewrite <- (filled4_step q) by (done || lia). done. }
  unfold st. rewrite filled4_full. done.
Qed.

Lemma softFocus_run P out w h params σ :
  getContext2d P = true →
  (0 < w < 2 ^ 31)%Z → (0 < h < 2 ^ 31)%Z →
  (out < length (u8c σ))%nat →
  length (bytes σ out) = (Z.to_nat (w * h) * 4)%nat →
  let soft :=
    pixelsOf (drawImage P (softFocusRadius params) w h
                        (canvasOf (bytes σ out)) blank)
             (Z.to_nat (w * h)) in
  softFocus P out w h (w * h) params σ =
    Ok {| data := length (u8c σ) + 1; width := w; height := h |}
       (ext σ []
          [soft; blocks (blendAt params (bytes σ out) soft)
                        (Z.to_nat (w * h))] 0).
Proof.
  intros Hctx Hw Hh Hout Hlen soft. unfold softFocus.
  assert (Hwh : (0 < w * h)%Z) by nia.
  set (n := Z.to_nat (w * h)) in *.
  set (q := blendAt params (bytes σ out) soft).
  erewrite bind_Ok by (by apply blurSeparate_run).
  fold n soft.
  erewrite bind_Ok by (apply new_Uint8ClampedArray_run; lia).
  cbn [length app].
  replace (Z.to_nat (w * h * 4)) with (n * 4)%nat by lia.
  set (st k := ext σ [] [soft; filled4 q 0%Z n k] 0).
  erewrite bind_Ok; cycle 1.
  { unfold for_upto. fold n.
    match goal with |- iterate _ _ _ ?s = _ => replace s with (st 0%nat) end.
    2:{ unfold st. by rewrite filled4_0. }
    apply iterate_states. intros k Hk. unfold st.
    do 6 (erewrite bind_Ok by apply u8_get_run).
    rewrite !bytes_ext_old by done.
    rewrite !(bytes_ext _ _ _ _ 0) by lia.
    slot.
    rewrite (u8_set_run _ _ _ _ 1); [|lia|].
    2:{ slot.
        rewrite length_filled4 by (done || lia).
        rewrite ?length_combine, ?length_softBlend. lia. }
    replace (k + 1)%nat with (S k) by lia.
    rewrite <- (filled4_step q) by (done || lia). done. }
  unfold st. rewrite filled4_full.
  apply new_ImageData_run; [done..|].
  rewrite (bytes_ext _ _ _ _ 1) by lia.
  slot.
  by rewrite length_blocks.
Qed.

Lemma length_pixelsOf c n : length (pixelsOf c n) = (n * 4)%nat.
Proof. unfold pixelsOf. by rewrite length_fmap, length_seq. Qed.

(** The whole pipeline on positive dimensions, whatever the input array
    holds. *)
Lemma applyFilmLook_run P imgData w h params σ :
  getContext2d P = true →
  (0 < w < 2 ^ 31)%Z → (0 < h < 2 ^ 31)%Z →
  let px := bytes σ (data imgData) in
  applyFilmLook P imgData w h params σ =
    Ok {| data := length (u8c σ) + 4; width := w; height := h |}
       (ext σ
          [gradedR params w h px; gradedG params w h px;
           gradedB params w h px; lumOf params w h px]
          [maskOf params w h px; glowOf P params w h px;
           outOf P params w h px (draws σ); softOf P params w h px (draws σ);
           finalOf P params w h px (draws σ)]
          (pixels w h)).
Proof.
  intros Hctx Hw Hh px. unfold applyFilmLook.
  assert (Hwh : (0 < w * h)%Z) by nia.
  erewrite bind_Ok by (apply toneMapGrade_run; lia).
  fold px. fold (pixels w h).
  fold (gradedR params w h px) (gradedG params w h px)
       (gradedB params w h px) (lumOf params w h px).
  cbv beta iota.
  erewrite bind_Ok by (apply glowMask_run; lia).
  rewrite ext_ext. cbn [app Nat.add f32 u8c ext length].
  rewrite (floats_ext _ _ _ _ 3) by done.
  slot.
  fold (pixels w h). fold (maskOf params w h px).
  rewrite app_nil_r.
  assert (Hmask : length (maskOf params w h px) = (pixels w h * 4)%nat)
    by (apply length_blocks; done).
  erewrite bind_Ok; cycle 1.
  { apply blur_run; [done..|].
    rewrite (bytes_ext _ _ _ _ 0) by lia. exact Hmask. }
  rewrite (bytes_ext _ _ _ _ 0) by lia.
  slot.
  fold (pixels w h). fold (glowOf P params w h px).
  rewrite ext_ext. cbn [app Nat.add f32 u8c ext length].
  rewrite length_app. cbn [length].
  erewrite bind_Ok; cycle 1.
  { apply combineGrain_run; [lia|].
    cbn [u8c ext]. rewrite length_app. cbn [length]. lia. }
  rewrite ext_ext. cbn [app Nat.add f32 u8c draws ext length].
  rewrite (floats_ext _ _ _ _ 0), (floats_ext _ _ _ _ 1),
    (floats_ext _ _ _ _ 2), (floats_ext _ _ _ _ 3) by lia.
  rewrite (bytes_ext _ _ _ _ 1) by lia.
  slot.
  rewrite Nat.add_0_r. fold (pixels w h).
  fold (outOf P params w h px (draws σ)).
  rewrite length_app. cbn [length].
  assert (Hout : length (outOf P params w h px (draws σ))
                 = (pixels w h * 4)%nat)
    by (apply length_blocks; done).
  etrans.
  { apply softFocus_run; [done..| |].
    - cbn [u8c ext]. rewrite length_app. cbn [length]. lia.
    - rewrite (bytes_ext _ _ _ _ 2) by lia. exact Hout. }
  rewrite (bytes_ext _ _ _ _ 2) by lia.
  slot.
  fold (pixels w h). fold (softOf P params w h px (draws σ)).
  fold (finalOf P params w h px (draws σ)).
  rewrite ext_ext. cbn [app Nat.add f32 u8c draws ext length].
  rewrite length_app. cbn [length].
  rewrite Nat.add_0_r, <- Nat.add_assoc. done.
Qed.

(** ** Dimensions, freshness and errors *)

Lemma length_finalOf P params w h px d0 :
  length (finalOf P params w h px d0) = (pixels w h * 4)%nat.
Proof. apply length_blocks. done. Qed.

Lemma pixels_bytes w h :
  (0 < w)%Z → (0 < h)%Z → (pixels w h * 4)%nat = Z.to_nat (w * h * 4).
Proof. intros Hw Hh. unfold pixels. assert (0 < w * h)%Z by nia. lia. Qed.

Lemma grey_valid : valid_input grey_world grey_image 1 1.
Proof. unfold valid_input. simpl. repeat split; lia. Qed.

(** C7: for every valid input buffer and every parameter set, the output
    buffer has the width and the height of the input buffer, and its pixel
    data has exactly [w * h * 4] bytes (on a platform that provides a 2D
    context, the pipeline returns such a buffer). *)
Theorem applyFilmLook_preserves_dimensions P imgData w h params σ :
  getContext2d P = true →
  valid_input σ imgData w h →
  ∃ res σ',
    applyFilmLook P imgData w h params σ = Ok res σ' ∧
    width res = width imgData ∧ height res = height imgData ∧
    length (bytes σ' (data res)) = Z.to_nat (w * h * 4).
Proof.
  intros Hctx (Ew & Eh & Hw & Hh & Hlive & Hlen).
  eexists _, _. split; [by apply applyFilmLook_run|].
  cbn [width height data]. repeat split; [done..|].
  rewrite (bytes_ext _ _ _ _ 4) by lia.
  slot.
  rewrite length_finalOf. apply pixels_bytes; lia.
Qed.

Lemma applyFilmLook_preserves_dimensions_witness :
  getContext2d unfiltered = true ∧
  valid_input grey_world grey_image 1 1 ∧
  ∃ res σ',
    applyFilmLook unfiltered grey_image 1 1 defaultParams grey_world
      = Ok res σ' ∧
    width res = width grey_image ∧ height res = height grey_image ∧
    length (bytes σ' (data res)) = Z.to_nat (1 * 1 * 4).
Proof.
  split; [reflexivity|]. split; [exact grey_valid|].
  apply (applyFilmLook_preserves_dimensions unfiltered grey_image 1 1
           defaultParams grey_world); [reflexivity | exact grey_valid].
Defined.



(** ** Numbers *)

Lemma clamp_Fin x : clamp (Fin x) = Fin (clamp01 x).
Proof.
  unfold clamp, Math_min, Math_max, lift2, clamp01, Rmin, Rmax. f_equal.
  repeat destruct Rle_dec; repeat destruct Rlt_dec; lra.
Qed.

Lemma clamp01_range x : 0 <= clamp01 x <= 1.
Proof. unfold clamp01. repeat destruct Rlt_dec; lra. Qed.

Lemma clamp01_id x : 0 <= x <= 1 → clamp01 x = x.
Proof. intros Hx. unfold clamp01. repeat destruct Rlt_dec; lra. Qed.

Lemma ToUint8Clamp_range v : (0 ≤ ToUint8Clamp v ≤ 255)%Z.
Proof.
  destruct v as [x|]; simpl; [|lia].
  destruct (Rle_dec x 0); [lia|].
  destruct (Rle_dec 255 x); [lia|].
  destruct (base_Int_part x) as [Hlo Hhi].
  assert (0 ≤ Int_part x)%Z.
  { apply Z.lt_succ_r, lt_IZR. rewrite succ_IZR. lra. }
  assert (Int_part x < 255)%Z by (apply lt_IZR; lra).
  repeat destruct Rlt_dec; try destruct (Z.even _); lia.
Qed.

Lemma ToUint8Clamp_IZR k : (0 ≤ k ≤ 255)%Z → ToUint8Clamp (Fin (IZR k)) = k.
Proof.
  intros Hk. simpl.
  destruct (Rle_dec (IZR k) 0) as [H0|H0].
  { apply (le_IZR k 0) in H0. lia. }
  destruct (Rle_dec 255 (IZR k)) as [H1|H1].
  { apply (le_IZR 255 k) in H1. lia. }
  assert (E : Int_part (IZR k) = k).
  { symmetry. apply Int_part_spec. lra. }
  rewrite E. repeat destruct Rlt_dec; try done; exfalso; lra.
Qed.

Lemma sample_lookup l k z : l !! k = Some z → sample l k = Fin (IZR z).
Proof. intros H. unfold sample. by rewrite H. Qed.

Lemma sample_lt l k : (k < length l)%nat → ∃ z, sample l k = Fin (IZR z).
Proof.
  intros Hk. destruct (lookup_lt_is_Some_2 l k Hk) as [z Hz].
  exists z. by apply sample_lookup.
Qed.

(** ** The tone curve *)

Lemma toneCurve_range a c : 0 < toneCurve a c < 1.
Proof.
  unfold toneCurve. pose proof (exp_pos (- a * (c - 0.5))) as He.
  split.
  - apply Rdiv_lt_0_compat; lra.
  - apply (Rmult_lt_reg_r (1 + exp (- a * (c - 0.5)))); [lra|].
    unfold Rdiv. rewrite Rmult_assoc, Rinv_l by lra. lra.
Qed.

Lemma luma_range r g b :
  0 < r < 1 → 0 < g < 1 → 0 < b < 1 → 0 < luma r g b < 1.
Proof. intros Hr Hg Hb. unfold luma. lra. Qed.

(** The step of lines 90-102 on three bytes. *)
Lemma toneGrade_Fin params (r g b : Z) :
  let tcR := toneCurve (toneA params) (IZR r / 255) in
  let tcG := toneCurve (toneA params) (IZR g / 255) in
  let tcB := toneCurve (toneA params) (IZR b / 255) in
  let l := luma tcR tcG tcB in
  toneGrade params (Fin (IZR r)) (Fin (IZR g)) (Fin (IZR b)) =
    (Fin (gradedRed tcR l), Fin (gradedGreen tcG l), Fin (gradedBlue tcB l),
     Fin l).
Proof.
  intros tcR tcG tcB l. unfold toneGrade.
  cbn [ndiv nadd nsub nmul nneg lift1 lift2 Math_exp].
  fold (toneCurve (toneA params) (IZR r / 255)).
  fold (toneCurve (toneA params) (IZR g / 255)).
  fold (toneCurve (toneA params) (IZR b / 255)).
  fold tcR tcG tcB. fold (luma tcR tcG tcB). fold l.
  rewrite !clamp_Fin. cbn [ndiv nadd nsub nmul nneg lift1 lift2].
  rewrite !clamp_Fin.
  fold (shadowMask l) (highlightMask l).
  unfold gradedRed, gradedGreen, gradedBlue.
  repeat f_equal; lra.
Qed.

Lemma gradedAt_bytes params px i (r g b : Z) :
  px !! (i * 4)%nat = Some r → px !! (i * 4 + 1)%nat = Some g →
  px !! (i * 4 + 2)%nat = Some b →
  gradedAt params px i =
    toneGrade params (Fin (IZR r)) (Fin (IZR g)) (Fin (IZR b)).
Proof.
  intros Hr Hg Hb. unfold gradedAt.
  by rewrite (sample_lookup _ _ r), (sample_lookup _ _ g),
    (sample_lookup _ _ b).
Qed.

(** ** Tone and grade *)

(** C3: for every pixel, the tone/grade stage stores the logistic curve of
    each normalised channel, graded by the shadow and highlight masks of the
    luminance of the curved channels and clamped to [0, 1], and stores that
    luminance. *)
Theorem toneMapGrade_formula px len params σ i (r g b : Z) :
  (0 ≤ len)%Z → (i < Z.to_nat len)%nat →
  bytes σ px !! (i * 4)%nat = Some r →
  bytes σ px !! (i * 4 + 1)%nat = Some g →
  bytes σ px !! (i * 4 + 2)%nat = Some b →
  let tcR := toneCurve (toneA params) (IZR r / 255) in
  let tcG := toneCurve (toneA params) (IZR g / 255) in
  let tcB := toneCurve (toneA params) (IZR b / 255) in
  let l := luma tcR tcG tcB in
  ∃ aR aG aB lum σ',
    toneMapGrade px len params σ = Ok (aR, aG, aB, lum) σ' ∧
    floats σ' aR !! i = Some (Fin (gradedRed tcR l)) ∧
    floats σ' aG !! i = Some (Fin (gradedGreen tcG l)) ∧
    floats σ' aB !! i = Some (Fin (gradedBlue tcB l)) ∧
    floats σ' lum !! i = Some (Fin l).
Proof.
  intros Hlen Hi Hr Hg Hb tcR tcG tcB l.
  eexists _, _, _, _, _. split; [by apply toneMapGrade_run|].
  rewrite (floats_ext _ _ _ _ 0), (floats_ext _ _ _ _ 1),
    (floats_ext _ _ _ _ 2), (floats_ext _ _ _ _ 3) by lia.
  slot.
  rewrite !lookup_fmap_seq by done.
  rewrite (gradedAt_bytes _ _ _ r g b) by done.
  rewrite toneGrade_Fin. done.
Qed.

Lemma toneMapGrade_formula_witness :
  (0 ≤ 1)%Z ∧ (0 < Z.to_nat 1)%nat ∧
  bytes grey_world 0 !! (0 * 4)%nat = Some 128%Z ∧
  bytes grey_world 0 !! (0 * 4 + 1)%nat = Some 128%Z ∧
  bytes grey_world 0 !! (0 * 4 + 2)%nat = Some 128%Z ∧
  let tc := toneCurve 5.0 (128 / 255) in
  let l := luma tc tc tc in
  ∃ aR aG aB lum σ',
    toneMapGrade 0 1 defaultParams grey_world = Ok (aR, aG, aB, lum) σ' ∧
    floats σ' aR !! 0%nat = Some (Fin (gradedRed tc l)) ∧
    floats σ' aG !! 0%nat = Some (Fin (gradedGreen tc l)) ∧
    floats σ' aB !! 0%nat = Some (Fin (gradedBlue tc l)) ∧
    floats σ' lum !! 0%nat = Some (Fin l).
Proof.
  split; [lia|]. split; [simpl; lia|]. do 3 (split; [reflexivity|]).
  apply (toneMapGrade_formula 0 1 defaultParams grey_world 0 128 128 128);
    [lia | simpl; lia | reflexivity..].
Defined.

(** ** The glow mask *)

Lemma maskAt_le params lum i l :
  lum !! i = Some (Fin l) → l <= glowThreshold params →
  maskAt params lum i = [0; 0; 0; 255]%Z.
Proof.
  intros Hl Hle. unfold maskAt, maskValue. rewrite Hl. cbn [default from_option Datatypes.id gt].
  destruct (Rlt_dec (glowThreshold params) l); [lra|].
  cbn [fmap list_fmap]. unfold ToUint8Clamp.
  repeat destruct Rle_dec; try lra; done.
Qed.

Lemma maskAt_gt params lum i l :
  lum !! i = Some (Fin l) → glowThreshold params < l →
  maskAt params lum i = [255; 255; 255; 255]%Z.
Proof.
  intros Hl Hlt. unfold maskAt, maskValue. rewrite Hl. cbn [default from_option Datatypes.id gt].
  destruct (Rlt_dec (glowThreshold params) l); [|lra].
  cbn [fmap list_fmap]. unfold ToUint8Clamp.
  repeat destruct Rle_dec; try lra; done.
Qed.

(** C4: a pixel whose luminance equals [glowThreshold] gets the mask value
    0 in its three colour channels (and the alpha 255): the comparison is
    strict. *)
Theorem glowMask_threshold_is_strict lum len params σ i :
  (0 ≤ len)%Z → (i < Z.to_nat len)%nat →
  floats σ lum !! i = Some (Fin (glowThreshold params)) →
  ∃ mask σ',
    glowMask lum len params σ = Ok mask σ' ∧
    bytes σ' mask !! (i * 4)%nat = Some 0%Z ∧
    bytes σ' mask !! (i * 4 + 1)%nat = Some 0%Z ∧
    bytes σ' mask !! (i * 4 + 2)%nat = Some 0%Z ∧
    bytes σ' mask !! (i * 4 + 3)%nat = Some 255%Z.
Proof.
  intros Hlen Hi Hl.
  eexists _, _. split; [by apply glowMask_run|].
  rewrite (bytes_ext _ _ _ _ 0) by lia.
  slot.
  rewrite <- (Nat.add_0_r (i * 4)) at 1.
  rewrite !lookup_blocks by (done || lia).
  rewrite (maskAt_le _ _ _ (glowThreshold params)) by (done || lra).
  done.
Qed.

Lemma glowMask_threshold_is_strict_witness :
  (0 ≤ 1)%Z ∧ (0 < Z.to_nat 1)%nat ∧
  floats lum_world 0 !! 0%nat = Some (Fin (glowThreshold defaultParams)) ∧
  ∃ mask σ',
    glowMask 0 1 defaultParams lum_world = Ok mask σ' ∧
    bytes σ' mask !! (0 * 4)%nat = Some 0%Z ∧
    bytes σ' mask !! (0 * 4 + 1)%nat = Some 0%Z ∧
    bytes σ' mask !! (0 * 4 + 2)%nat = Some 0%Z ∧
    bytes σ' mask !! (0 * 4 + 3)%nat = Some 255%Z.
Proof.
  split; [lia|]. split; [simpl; lia|]. split; [reflexivity|].
  apply (glowMask_threshold_is_strict 0 1 defaultParams lum_world 0);
    [lia | simpl; lia | reflexivity].
Defined.

Lemma blocks_ext {A} (q q' : nat → list A) n :
  (∀ i, (i < n)%nat → q i = q' i) → blocks q n = blocks q' n.
Proof.
  intros Hq. induction n as [|n IH]; [done|].
  rewrite !blocks_S, IH, Hq by (intros; (apply Hq || idtac); lia). done.
Qed.

(** On a buffer that holds every byte of pixel [i], the step of lines
    90-102 yields reals, the luminance strictly between 0 and 1. *)
Lemma gradedAt_valid params px i :
  (i * 4 + 3 < length px)%nat →
  ∃ r g b l : R,
    gradedAt params px i = (Fin r, Fin g, Fin b, Fin l) ∧
    0 <= r <= 1 ∧ 0 <= g <= 1 ∧ 0 <= b <= 1 ∧ 0 < l < 1.
Proof.
  intros Hi.
  destruct (lookup_lt_is_Some_2 px (i * 4)) as [r Hr]; [lia|].
  destruct (lookup_lt_is_Some_2 px (i * 4 + 1)) as [g Hg]; [lia|].
  destruct (lookup_lt_is_Some_2 px (i * 4 + 2)) as [b Hb]; [lia|].
  rewrite (gradedAt_bytes _ _ _ r g b), toneGrade_Fin by done.
  eexists _, _, _, _. split; [done|].
  repeat split; try apply clamp01_range;
    apply luma_range; apply toneCurve_range.
Qed.

(** The exponent of the tone curve is within [-5, 5] for a [toneA] within
    [-10, 10] and a channel within [0, 1]; the curve then keeps away from 0
    and from 1. *)
Lemma exp_le_243 x : x <= 5 → exp x <= 243.
Proof.
  intros Hx.
  assert (E5 : exp 5 <= 243).
  { replace 5 with (1 + (1 + (1 + (1 + 1)))) by lra.
    rewrite !exp_plus.
    pose proof exp_le_3 as H3. pose proof (exp_pos 1) as H0.
    assert (exp 1 * exp 1 <= 9) by nra.
    assert (exp 1 * (exp 1 * exp 1) <= 27) by nra.
    assert (exp 1 * (exp 1 * (exp 1 * exp 1)) <= 81) by nra.
    nra. }
  destruct (Rle_lt_or_eq_dec _ _ Hx) as [Hlt | ->]; [|done].
  pose proof (exp_increasing _ _ Hlt). lra.
Qed.

Lemma exp_ge_243 x : -5 <= x → / 243 <= exp x.
Proof.
  intros Hx. replace x with (- - x) by lra. rewrite exp_Ropp.
  apply Rinv_le_contravar; [apply exp_pos|]. apply exp_le_243. lra.
Qed.

Lemma toneCurve_margin a c :
  -10 <= a <= 10 → 0 <= c <= 1 → / 244 <= toneCurve a c <= 243 / 244.
Proof.
  intros Ha Hc. unfold toneCurve.
  assert (Hx : -5 <= - a * (c - 0.5) <= 5) by nra.
  pose proof (exp_le_243 _ (proj2 Hx)) as Hup.
  pose proof (exp_ge_243 _ (proj1 Hx)) as Hlow.
  set (e := exp (- a * (c - 0.5))) in *.
  split.
  - unfold Rdiv. rewrite Rmult_1_l.
    apply Rinv_le_contravar; lra.
  - apply (Rmult_le_reg_r (1 + e)); [lra|].
    unfold Rdiv at 1. rewrite Rmult_assoc, Rinv_l by lra. lra.
Qed.

(** On a buffer of bytes that holds pixel [i], for a [toneA] within
    [-10, 10]: the luminance of lines 90-97. *)
Lemma gradedAt_margin params px i :
  (i * 4 + 3 < length px)%nat → Forall byte px →
  -10 <= toneA params <= 10 →
  ∃ l : R, (gradedAt params px i).2 = Fin l ∧ / 244 <= l <= 243 / 244.
Proof.
  intros Hi Hbytes Ha.
  destruct (lookup_lt_is_Some_2 px (i * 4)) as [r Hr]; [lia|].
  destruct (lookup_lt_is_Some_2 px (i * 4 + 1)) as [g Hg]; [lia|].
  destruct (lookup_lt_is_Some_2 px (i * 4 + 2)) as [b Hb]; [lia|].
  rewrite (gradedAt_bytes _ _ _ r g b), toneGrade_Fin by done.
  cbn [snd]. eexists. split; [done|].
  rewrite Forall_lookup in Hbytes.
  assert (Hc : ∀ z, byte z → 0 <= IZR z / 255 <= 1).
  { intros z [Hz0 Hz1]. apply IZR_le in Hz0, Hz1. lra. }
  pose proof (toneCurve_margin (toneA params) _ Ha (Hc r (Hbytes _ _ Hr))).
  pose proof (toneCurve_margin (toneA params) _ Ha (Hc g (Hbytes _ _ Hg))).
  pose proof (toneCurve_margin (toneA params) _ Ha (Hc b (Hbytes _ _ Hb))).
  unfold luma. lra.
Qed.

(** C5: on every valid input, for a [toneA] within [-10, 10] (the range the
    specification documents is [1, 10]), the luminance of each pixel lies
    strictly between 0 and 1, at least 1/244 away from both; hence a
    threshold of at least 1 gives the mask that is 0 in every colour
    channel, and a threshold of at most 0 the mask that is 255 everywhere. *)
Theorem glowMask_extreme_thresholds px len params σ :
  (0 ≤ len)%Z →
  length (bytes σ px) = Z.to_nat (len * 4) →
  Forall byte (bytes σ px) →
  -10 <= toneA params <= 10 →
  ∃ aR aG aB lum σ1 mask σ2,
    toneMapGrade px len params σ = Ok (aR, aG, aB, lum) σ1 ∧
    glowMask lum len params σ1 = Ok mask σ2 ∧
    (∀ i, (i < Z.to_nat len)%nat →
          ∃ l, floats σ1 lum !! i = Some (Fin l) ∧ / 244 <= l <= 243 / 244) ∧
    (1 <= glowThreshold params →
       bytes σ2 mask = blocks (λ _, [0; 0; 0; 255]%Z) (Z.to_nat len)) ∧
    (glowThreshold params <= 0 →
       bytes σ2 mask = blocks (λ _, [255; 255; 255; 255]%Z) (Z.to_nat len)).
Proof.
  intros Hlen Hpx Hbytes Ha.
  eexists _, _, _, _, _, _, _.
  split; [by apply toneMapGrade_run|].
  split; [by apply glowMask_run|].
  rewrite ext_ext, (bytes_ext _ _ _ _ 0) by (cbn [u8c ext]; rewrite app_nil_r; lia).
  rewrite !(floats_ext _ _ _ _ 3) by lia.
  slot. cbn [app].
  assert (Hlum : ∀ i, (i < Z.to_nat len)%nat →
            ∃ l, ((λ i, (gradedAt params (bytes σ px) i).2) <$>
                    seq 0 (Z.to_nat len)) !! i = Some (Fin l) ∧
                 / 244 <= l <= 243 / 244).
  { intros i Hi. rewrite lookup_fmap_seq by done.
    destruct (gradedAt_margin params (bytes σ px) i) as (l & E & H);
      [lia | done | done |].
    exists l. rewrite E. done. }
  split; [exact Hlum|]. split; intros Hthr; apply blocks_ext; intros i Hi;
    destruct (Hlum i Hi) as (l & El & Hl).
  - apply (maskAt_le _ _ _ l); [done|lra].
  - apply (maskAt_gt _ _ _ l); [done|lra].
Qed.

Lemma grey_bytes : Forall byte (bytes grey_world 0).
Proof. repeat constructor; lia. Qed.

Lemma glowMask_extreme_thresholds_witness :
  (0 ≤ 1)%Z ∧
  length (bytes grey_world 0) = Z.to_nat (1 * 4) ∧
  Forall byte (bytes grey_world 0) ∧
  -10 <= toneA glowOff <= 10 ∧
  -10 <= toneA (setParam defaultParams key_glowThreshold 0) <= 10 ∧
  (∃ aR aG aB lum σ1 mask σ2,
     toneMapGrade 0 1 glowOff grey_world = Ok (aR, aG, aB, lum) σ1 ∧
     glowMask lum 1 glowOff σ1 = Ok mask σ2 ∧
     bytes σ2 mask = blocks (λ _, [0; 0; 0; 255]%Z) (Z.to_nat 1)) ∧
  (∃ aR aG aB lum σ1 mask σ2,
     toneMapGrade 0 1 (setParam defaultParams key_glowThreshold 0) grey_world
       = Ok (aR, aG, aB, lum) σ1 ∧
     glowMask lum 1 (setParam defaultParams key_glowThreshold 0) σ1
       = Ok mask σ2 ∧
     bytes σ2 mask = blocks (λ _, [255; 255; 255; 255]%Z) (Z.to_nat 1)).
Proof.
  assert (Ha : -10 <= 5.0 <= 10) by lra.
  split; [lia|]. split; [reflexivity|]. split; [exact grey_bytes|].
  split; [exact Ha|]. split; [exact Ha|]. split.
  - destruct (glowMask_extreme_thresholds 0 1 glowOff grey_world)
      as (aR & aG & aB & lum & σ1 & mask & σ2 & H1 & H2 & _ & H3 & _);
      [lia | reflexivity | exact grey_bytes | exact Ha |].
    exists aR, aG, aB, lum, σ1, mask, σ2.
    split; [exact H1|]. split; [exact H2|]. apply H3. simpl. lra.
  - destruct (glowMask_extreme_thresholds 0 1
                (setParam defaultParams key_glowThreshold 0) grey_world)
      as (aR & aG & aB & lum & σ1 & mask & σ2 & H1 & H2 & _ & _ & H3);
      [lia | reflexivity | exact grey_bytes | exact Ha |].
    exists aR, aG, aB, lum, σ1, mask, σ2.
    split; [exact H1|]. split; [exact H2|]. apply H3. simpl. lra.
Defined.

(** ** Grain *)

(** C6: for every pixel the grain stage draws one sample of [Math.random],
    hence one noise value within [-grainStrength, grainStrength], and adds
    the same [noise * (0.7 + 0.3 * lum[i])] to R, G and B before it clamps
    them. *)
Theorem combineGrain_monochrome P (aR aG aB lum glow : nat) len params σ i :
  (0 ≤ len)%Z → (i < Z.to_nat len)%nat →
  (glow < length (u8c σ))%nat →
  0 <= grainStrength params →
  0 <= Math_random P (draws σ + i) < 1 →
  ∃ out σ' noise,
    combineGrain P aR aG aB lum glow len params σ = Ok out σ' ∧
    draws σ' = (draws σ + Z.to_nat len)%nat ∧
    noise = (Math_random P (draws σ + i) * 2 - 1) * grainStrength params ∧
    - grainStrength params <= noise <= grainStrength params ∧
    let delta :=
      (Fin noise * (Fin 0.7 + Fin 0.3 * default NaN (floats σ lum !! i)))%num in
    let rr := (default NaN (floats σ aR !! i)
               + sample (bytes σ glow) (i * 4) / Fin 255
                 * Fin (glowStrength params))%num in
    let gg := (default NaN (floats σ aG !! i)
               + sample (bytes σ glow) (i * 4 + 1) / Fin 255
                 * Fin (glowStrength params))%num in
    let bb := (default NaN (floats σ aB !! i)
               + sample (bytes σ glow) (i * 4 + 2) / Fin 255
                 * Fin (glowStrength params))%num in
    bytes σ' out !! (i * 4)%nat
      = Some (ToUint8Clamp (clamp (rr + delta) * Fin 255)) ∧
    bytes σ' out !! (i * 4 + 1)%nat
      = Some (ToUint8Clamp (clamp (gg + delta) * Fin 255)) ∧
    bytes σ' out !! (i * 4 + 2)%nat
      = Some (ToUint8Clamp (clamp (bb + delta) * Fin 255)) ∧
    bytes σ' out !! (i * 4 + 3)%nat = Some 255%Z.
Proof.
  intros Hlen Hi Hglow Hgs Hu.
  eexists _, _, _. split; [by apply combineGrain_run|].
  split; [done|]. split; [reflexivity|]. split; [nra|].
  rewrite (bytes_ext _ _ _ _ 0) by lia. slot.
  rewrite <- (Nat.add_0_r (i * 4)) at 1.
  rewrite !lookup_blocks by (done || lia).
  unfold combineAt, combine. cbn [fmap list_fmap lookup list_lookup].
  repeat split; try done.
  unfold ToUint8Clamp. repeat destruct Rle_dec; try lra; done.
Qed.

Lemma combineGrain_monochrome_witness :
  (0 ≤ 1)%Z ∧ (0 < Z.to_nat 1)%nat ∧
  (0 < length (u8c graded_world))%nat ∧
  0 <= grainStrength defaultParams ∧
  0 <= Math_random unfiltered (draws graded_world + 0) < 1 ∧
  ∃ out σ' noise,
    combineGrain unfiltered 0 1 2 3 0 1 defaultParams graded_world
      = Ok out σ' ∧
    draws σ' = 1%nat ∧
    noise = (0.5 * 2 - 1) * 0.02 ∧
    - grainStrength defaultParams <= noise <= 0.02 ∧
    let delta := (Fin noise * (Fin 0.7 + Fin 0.3 * Fin 0.5))%num in
    let c := (Fin 0.5 + Fin 0 / Fin 255 * Fin 0.4)%num in
    bytes σ' out !! 0%nat
      = Some (ToUint8Clamp (clamp (c + delta) * Fin 255)) ∧
    bytes σ' out !! 1%nat
      = Some (ToUint8Clamp (clamp (c + delta) * Fin 255)) ∧
    bytes σ' out !! 2%nat
      = Some (ToUint8Clamp (clamp (c + delta) * Fin 255)) ∧
    bytes σ' out !! 3%nat = Some 255%Z.
Proof.
  split; [lia|]. split; [simpl; lia|]. split; [simpl; lia|].
  split; [simpl; lra|]. split; [simpl; lra|].
  exact (combineGrain_monochrome unfiltered 0 1 2 3 0 1 defaultParams
           graded_world 0 ltac:(lia) ltac:(simpl; lia) ltac:(simpl; lia)
           ltac:(simpl; lra) ltac:(simpl; lra)).
Defined.

(** ** Neutral parameters *)

Lemma combineAt_neutral P params Rv Gv Bv Lv glow d0 i (r g b l : R) :
  glowStrength params = 0 → grainStrength params = 0 →
  Rv !! i = Some (Fin r) → Gv !! i = Some (Fin g) → Bv !! i = Some (Fin b) →
  Lv !! i = Some (Fin l) →
  0 <= r <= 1 → 0 <= g <= 1 → 0 <= b <= 1 →
  (i * 4 + 2 < length glow)%nat →
  combineAt P params Rv Gv Bv Lv glow d0 i = to8bit Rv Gv Bv i.
Proof.
  intros Hglow Hgrain HR HG HB HL Hr Hg Hb Hlen.
  destruct (sample_lt glow (i * 4)) as [g0 E0]; [lia|].
  destruct (sample_lt glow (i * 4 + 1)) as [g1 E1]; [lia|].
  destruct (sample_lt glow (i * 4 + 2)) as [g2 E2]; [lia|].
  unfold combineAt, to8bit, combine.
  rewrite HR, HG, HB, HL, E0, E1, E2, Hglow, Hgrain.
  cbn [default from_option Datatypes.id ndiv nadd nsub nmul lift2].
  rewrite !clamp_Fin. cbn [nmul lift2].
  set (u := Math_random P (d0 + i)).
  replace (r + IZR g0 / 255 * 0 + (u * 2 - 1) * 0 * (0.7 + 0.3 * l))
    with r by lra.
  replace (g + IZR g1 / 255 * 0 + (u * 2 - 1) * 0 * (0.7 + 0.3 * l))
    with g by lra.
  replace (b + IZR g2 / 255 * 0 + (u * 2 - 1) * 0 * (0.7 + 0.3 * l))
    with b by lra.
  by rewrite !clamp01_id.
Qed.

Lemma blendAt_neutral params out soft i a b c :
  softFocusStrength params = 0 →
  out !! (i * 4)%nat = Some (ToUint8Clamp a) →
  out !! (i * 4 + 1)%nat = Some (ToUint8Clamp b) →
  out !! (i * 4 + 2)%nat = Some (ToUint8Clamp c) →
  (i * 4 + 2 < length soft)%nat →
  blendAt params out soft i = ToUint8Clamp <$> [a; b; c; Fin 255].
Proof.
  intros Hs Ha Hb Hc Hlen.
  destruct (sample_lt soft (i * 4)) as [s0 E0]; [lia|].
  destruct (sample_lt soft (i * 4 + 1)) as [s1 E1]; [lia|].
  destruct (sample_lt soft (i * 4 + 2)) as [s2 E2]; [lia|].
  unfold blendAt, softBlend.
  rewrite (sample_lookup _ _ _ Ha), (sample_lookup _ _ _ Hb),
    (sample_lookup _ _ _ Hc), E0, E1, E2, Hs.
  cbn [ndiv nadd nsub nmul lift2 fmap list_fmap].
  replace ((IZR (ToUint8Clamp a) / 255 * (1 - 0) + IZR s0 / 255 * 0) * 255)
    with (IZR (ToUint8Clamp a)) by lra.
  replace ((IZR (ToUint8Clamp b) / 255 * (1 - 0) + IZR s1 / 255 * 0) * 255)
    with (IZR (ToUint8Clamp b)) by lra.
  replace ((IZR (ToUint8Clamp c) / 255 * (1 - 0) + IZR s2 / 255 * 0) * 255)
    with (IZR (ToUint8Clamp c)) by lra.
  by rewrite !ToUint8Clamp_IZR by apply ToUint8Clamp_range.
Qed.

(** C1: with [glowStrength], [grainStrength] and [softFocusStrength] all 0,
    the output of the pipeline on a valid input is, pixel for pixel, the
    8-bit conversion of what the tone and grade stage stores in R, G and
    B. *)
Theorem applyFilmLook_neutral P imgData w h params σ :
  getContext2d P = true →
  valid_input σ imgData w h →
  glowStrength params = 0 →
  grainStrength params = 0 →
  softFocusStrength params = 0 →
  ∃ res σ' aR aG aB lum σ1,
    applyFilmLook P imgData w h params σ = Ok res σ' ∧
    toneMapGrade (data imgData) (w * h) params σ = Ok (aR, aG, aB, lum) σ1 ∧
    bytes σ' (data res) =
      blocks (to8bit (floats σ1 aR) (floats σ1 aG) (floats σ1 aB))
             (Z.to_nat (w * h)).
Proof.
  intros Hctx (Ew & Eh & Hw & Hh & Hlive & Hlen) Hglow Hgrain Hsoft.
  assert (Hwh : (0 < w * h)%Z) by nia.
  eexists _, _, _, _, _, _, _.
  split; [by apply applyFilmLook_run|].
  split; [apply toneMapGrade_run; lia|].
  cbn [data]. rewrite (bytes_ext _ _ _ _ 4) by lia.
  rewrite (floats_ext _ _ _ _ 0), (floats_ext _ _ _ _ 1),
    (floats_ext _ _ _ _ 2) by lia.
  slot.
  set (px := bytes σ (data imgData)) in *.
  fold (pixels w h).
  fold (gradedR params w h px) (gradedG params w h px)
       (gradedB params w h px).
  unfold finalOf. apply blocks_ext. intros i Hi.
  destruct (gradedAt_valid params px i) as (r & g & b & l & E & Hr & Hg & Hb & _).
  { unfold pixels in Hi. lia. }
  assert (Hout : outOf P params w h px (draws σ) =
                 blocks (to8bit (gradedR params w h px) (gradedG params w h px)
                                (gradedB params w h px)) (pixels w h)).
  { unfold outOf. apply blocks_ext. intros j Hj.
    destruct (gradedAt_valid params px j) as (r' & g' & b' & l' & E' & ? & ? & ? & _).
    { unfold pixels in Hj. lia. }
    apply (combineAt_neutral _ _ _ _ _ _ _ _ _ r' g' b' l'); try done.
    - unfold gradedR. rewrite lookup_fmap_seq by done. by rewrite E'.
    - unfold gradedG. rewrite lookup_fmap_seq by done. by rewrite E'.
    - unfold gradedB. rewrite lookup_fmap_seq by done. by rewrite E'.
    - unfold lumOf. rewrite lookup_fmap_seq by done. by rewrite E'.
    - unfold glowOf. rewrite length_pixelsOf. lia. }
  rewrite Hout. unfold to8bit at 2.
  apply blendAt_neutral; [done| | | |].
  - rewrite <- (Nat.add_0_r (i * 4)). by rewrite lookup_blocks by (done || lia).
  - by rewrite lookup_blocks by (done || lia).
  - by rewrite lookup_blocks by (done || lia).
  - unfold softOf. rewrite length_pixelsOf. lia.
Qed.

Lemma applyFilmLook_neutral_witness :
  getContext2d unfiltered = true ∧
  valid_input grey_world grey_image 1 1 ∧
  glowStrength neutral = 0 ∧ grainStrength neutral = 0 ∧
  softFocusStrength neutral = 0 ∧
  ∃ res σ' aR aG aB lum σ1,
    applyFilmLook unfiltered grey_image 1 1 neutral grey_world = Ok res σ' ∧
    toneMapGrade (data grey_image) (1 * 1) neutral grey_world
      = Ok (aR, aG, aB, lum) σ1 ∧
    bytes σ' (data res) =
      blocks (to8bit (floats σ1 aR) (floats σ1 aG) (floats σ1 aB))
             (Z.to_nat (1 * 1)).
Proof.
  split; [reflexivity|]. split; [exact grey_valid|].
  do 3 (split; [reflexivity|]).
  apply (applyFilmLook_neutral unfiltered grey_image 1 1 neutral grey_world);
    [reflexivity | exact grey_valid | reflexivity..].
Defined.

(** ** Determinism *)

Lemma bind_ext {A B} (m m' : M A) (k k' : A → M B) σ :
  m σ = m' σ → (∀ a σ', k a σ' = k' a σ') →
  (m ≫= k) σ = (m' ≫= k') σ.
Proof.
  intros Hm Hk. unfold mbind, M_bind. rewrite Hm.
  destruct (m' σ); [apply Hk|done].
Qed.

Lemma combine_no_grain params Ri Gi Bi li g0 g1 g2 u1 u2 :
  grainStrength params = 0 →
  combine params Ri Gi Bi li g0 g1 g2 (Fin u1) =
  combine params Ri Gi Bi li g0 g1 g2 (Fin u2).
Proof.
  intros Hgrain. unfold combine. rewrite Hgrain.
  assert (E : ∀ u, ((Fin u * Fin 2 - Fin 1) * Fin 0)%num = Fin 0).
  { intros u. cbn [nsub nmul lift2]. f_equal. lra. }
  by rewrite !E.
Qed.

Lemma combineGrain_no_grain P rnd1 rnd2 (aR aG aB lum glow : nat) len params σ :
  grainStrength params = 0 →
  combineGrain (with_random P rnd1) aR aG aB lum glow len params σ =
  combineGrain (with_random P rnd2) aR aG aB lum glow len params σ.
Proof.
  intros Hgrain. unfold combineGrain.
  apply bind_ext; [done|]. intros out σ1.
  apply bind_ext; [|done].
  apply iterate_ext. intros k s.
  do 6 (apply bind_ext; [done|]; intros ? ?).
  unfold mbind, M_bind, random, f32_get. cbn [Math_random with_random].
  match goal with
  | |- context [Fin (rnd1 ?d)] =>
      by rewrite (combine_no_grain _ _ _ _ _ _ _ _ (rnd1 d) (rnd2 d))
  end.
Qed.

Lemma finalOf_no_grain P rnd1 rnd2 params w h px d1 d2 :
  grainStrength params = 0 →
  finalOf (with_random P rnd1) params w h px d1 =
  finalOf (with_random P rnd2) params w h px d2.
Proof.
  intros Hgrain.
  assert (E : outOf (with_random P rnd1) params w h px d1 =
              outOf (with_random P rnd2) params w h px d2).
  { unfold outOf. apply blocks_ext. intros i _. unfold combineAt.
    cbn [Math_random with_random].
    by rewrite (combine_no_grain _ _ _ _ _ _ _ _ (rnd1 (d1 + i)%nat)
                                 (rnd2 (d2 + i)%nat)). }
  unfold finalOf, softOf. by rewrite E.
Qed.

(** C10: with [grainStrength] 0 the pipeline is deterministic.  Whatever
    values [Math.random] yields, a run from the same store on the same input
    and parameters has the same outcome, result and store alike; and two
    runs that return, from stores that hold the same input bytes, return
    output buffers of identical contents. *)
Theorem applyFilmLook_deterministic_without_grain P rnd1 rnd2 imgData w h
    params σ :
  grainStrength params = 0 →
  applyFilmLook (with_random P rnd1) imgData w h params σ =
  applyFilmLook (with_random P rnd2) imgData w h params σ
  ∧
  (getContext2d P = true → (0 < w < 2 ^ 31)%Z → (0 < h < 2 ^ 31)%Z →
   ∀ imgData2 σ2,
     bytes σ2 (data imgData2) = bytes σ (data imgData) →
     ∃ res1 σ1' res2 σ2',
       applyFilmLook (with_random P rnd1) imgData w h params σ
         = Ok res1 σ1' ∧
       applyFilmLook (with_random P rnd2) imgData2 w h params σ2
         = Ok res2 σ2' ∧
       bytes σ1' (data res1) = bytes σ2' (data res2)).
Proof.
  intros Hgrain. split.
  - unfold applyFilmLook.
    apply bind_ext; [done|]. intros [[[aR aG] aB] lum] σ1.
    apply bind_ext; [done|]. intros mask σ2.
    apply bind_ext; [done|]. intros glow σ3.
    apply bind_ext; [by apply combineGrain_no_grain|]. done.
  - intros Hctx Hw Hh imgData2 σ2 Hsame.
    eexists _, _, _, _.
    split; [by apply applyFilmLook_run|].
    split; [by apply applyFilmLook_run|].
    cbn [data]. rewrite !(bytes_ext _ _ _ _ 4) by lia.
    slot.
    rewrite Hsame. by apply finalOf_no_grain.
Qed.

Lemma applyFilmLook_deterministic_without_grain_witness :
  grainStrength neutral = 0 ∧
  applyFilmLook (with_random unfiltered (λ _, 0.25)) grey_image 1 1 neutral
                grey_world =
  applyFilmLook (with_random unfiltered (λ k, / (INR k + 2))) grey_image 1 1
                neutral grey_world.
Proof.
  split; [reflexivity|].
  apply (applyFilmLook_deterministic_without_grain unfiltered);
    reflexivity.
Defined.

(** ** Writes go to fresh arrays only *)

Section Keeps.

Context (σ0 : world).

Lemma preserved_refl : preserved σ0 σ0.
Proof. split; done. Qed.

Lemma preserved_bytes σ a :
  preserved σ0 σ → (a < length (u8c σ0))%nat → bytes σ a = bytes σ0 a.
Proof.
  intros [_ [us E]] Ha. unfold bytes. by rewrite E, lookup_app_l.
Qed.

Lemma preserved_floats σ a :
  preserved σ0 σ → (a < length (f32 σ0))%nat → floats σ a = floats σ0 a.
Proof.
  intros [[fs E] _] Ha. unfold floats. by rewrite E, lookup_app_l.
Qed.

Lemma keeps_ret {A} (a : A) (Q : A → Prop) : Q a → keeps σ0 (mret a) Q.
Proof. intros HQ σ Hσ. done. Qed.

Lemma keeps_bind {A B} (m : M A) (k : A → M B) Q Q' :
  keeps σ0 m Q → (∀ a, Q a → keeps σ0 (k a) Q') → keeps σ0 (m ≫= k) Q'.
Proof.
  intros Hm Hk σ Hσ. specialize (Hm σ Hσ). unfold mbind, M_bind.
  destruct (m σ) as [a σ'|e σ']; [|done].
  destruct Hm as [Hσ' HQ]. by apply Hk.
Qed.

Lemma keeps_weaken {A} (m : M A) (Q Q' : A → Prop) :
  keeps σ0 m Q → (∀ a, Q a → Q' a) → keeps σ0 m Q'.
Proof.
  intros Hm HQ σ Hσ. specialize (Hm σ Hσ).
  destruct (m σ); [|done]. destruct Hm. split; [done|by apply HQ].
Qed.

Lemma keeps_read {A} (m : M A) :
  (∀ σ, ∃ a, m σ = Ok a σ) → keeps σ0 m (λ _, True).
Proof. intros Hm σ Hσ. destruct (Hm σ) as [a ->]. done. Qed.

Lemma keeps_new_Float32Array len :
  keeps σ0 (new_Float32Array len) (λ a, (length (f32 σ0) ≤ a)%nat).
Proof.
  intros σ [[fs Ef] Hu]. unfold new_Float32Array.
  destruct (len <? 0)%Z; [by split; [exists fs|]|].
  split; [split; [|done]|].
  - cbn [f32]. rewrite Ef, <- app_assoc. by eexists.
  - rewrite Ef, length_app. lia.
Qed.

Lemma keeps_new_Uint8ClampedArray len :
  keeps σ0 (new_Uint8ClampedArray len) (λ a, (length (u8c σ0) ≤ a)%nat).
Proof.
  intros σ [Hf [us Eu]]. unfold new_Uint8ClampedArray.
  destruct (len <? 0)%Z; [by split; [|exists us]|].
  split; [split; [done|]|].
  - cbn [u8c]. rewrite Eu, <- app_assoc. by eexists.
  - rewrite Eu, length_app. lia.
Qed.

Lemma keeps_f32_put a i v :
  (length (f32 σ0) ≤ a)%nat → keeps σ0 (f32_put a i v) (λ _, True).
Proof.
  intros Ha σ [[fs Ef] Hu]. unfold f32_put.
  split; [split; [|done]|done].
  cbn [f32]. rewrite Ef, insert_app_r_alt by done. by eexists.
Qed.

Lemma keeps_u8_set a vs off :
  (length (u8c σ0) ≤ a)%nat → keeps σ0 (u8_set a vs off) (λ _, True).
Proof.
  intros Ha σ [Hf [us Eu]]. unfold u8_set.
  destruct (_ <? _)%nat; [by split; [|exists us]|].
  split; [split; [done|]|done].
  cbn [u8c]. rewrite Eu, insert_app_r_alt by done. by eexists.
Qed.

Lemma keeps_iterate body n i :
  (∀ k, keeps σ0 (body k) (λ _, True)) →
  keeps σ0 (iterate n i body) (λ _, True).
Proof.
  intros Hbody. revert i. induction n as [|n IH]; intros i; simpl.
  - by apply keeps_ret.
  - eapply keeps_bind; [apply Hbody|]. intros _ _. apply IH.
Qed.

Lemma keeps_getContext P : keeps σ0 (getContext P) (λ _, True).
Proof. intros σ Hσ. unfold getContext. by destruct (getContext2d P). Qed.

Lemma keeps_random P : keeps σ0 (random P) (λ _, True).
Proof. intros σ [Hf Hu]. unfold random. done. Qed.

Lemma keeps_new_ImageData d sw sh :
  keeps σ0 (new_ImageData d sw sh) (λ img, data img = d).
Proof.
  intros σ Hσ. unfold new_ImageData.
  repeat match goal with |- context [if ?c then _ else _] => destruct c end;
    done.
Qed.

Lemma keeps_getImageData c sw sh :
  keeps σ0 (getImageData c sw sh) (λ a, (length (u8c σ0) ≤ a)%nat).
Proof.
  intros σ [Hf [us Eu]]. unfold getImageData.
  destruct (negb _); [by split; [|exists us]|].
  destruct (_ || _)%Z; [by split; [|exists us]|].
  split; [split; [done|]|].
  - cbn [u8c]. rewrite Eu, <- app_assoc. by eexists.
  - rewrite Eu, length_app. lia.
Qed.

Lemma keeps_blur P d w h r :
  keeps σ0 (blur P d w h r) (λ a, (length (u8c σ0) ≤ a)%nat).
Proof.
  unfold blur.
  eapply keeps_bind; [apply keeps_getContext|]. intros _ _.
  eapply keeps_bind; [apply keeps_new_ImageData|]. intros img _.
  eapply keeps_bind; [by apply keeps_read; eexists|]. intros cv _.
  apply keeps_getImageData.
Qed.

Lemma keeps_blurSeparate P d w h r :
  keeps σ0 (blurSeparate P d w h r) (λ a, (length (u8c σ0) ≤ a)%nat).
Proof.
  unfold blurSeparate.
  eapply keeps_bind; [apply keeps_getContext|]. intros _ _.
  eapply keeps_bind; [apply keeps_new_ImageData|]. intros img _.
  eapply keeps_bind; [by apply keeps_read; eexists|]. intros cv _.
  eapply keeps_bind; [apply keeps_getContext|]. intros _ _.
  apply keeps_getImageData.
Qed.

Lemma keeps_toneMapGrade px len params :
  keeps σ0 (toneMapGrade px len params)
    (λ '(aR, aG, aB, lum),
       (length (f32 σ0) ≤ aR)%nat ∧ (length (f32 σ0) ≤ aG)%nat ∧
       (length (f32 σ0) ≤ aB)%nat ∧ (length (f32 σ0) ≤ lum)%nat).
Proof.
  unfold toneMapGrade.
  eapply keeps_bind; [apply keeps_new_Float32Array|]. intros aR HR.
  eapply keeps_bind; [apply keeps_new_Float32Array|]. intros aG HG.
  eapply keeps_bind; [apply keeps_new_Float32Array|]. intros aB HB.
  eapply keeps_bind; [apply keeps_new_Float32Array|]. intros lum HL.
  eapply keeps_bind; [|intros _ _; by apply keeps_ret].
  apply keeps_iterate. intros k.
  do 3 (eapply keeps_bind; [by apply keeps_read; eexists|]; intros ? _).
  destruct (toneGrade _ _ _ _) as [[[r g] b] l].
  repeat (eapply keeps_bind; [by apply keeps_f32_put|]; intros _ _).
  by apply keeps_f32_put.
Qed.

Lemma keeps_glowMask lum len params :
  keeps σ0 (glowMask lum len params) (λ a, (length (u8c σ0) ≤ a)%nat).
Proof.
  unfold glowMask.
  eapply keeps_bind; [apply keeps_new_Uint8ClampedArray|]. intros mask Hm.
  eapply keeps_bind; [|intros _ _; by apply keeps_ret].
  apply keeps_iterate. intros k.
  eapply keeps_bind; [by apply keeps_read; eexists|]. intros l _.
  by apply keeps_u8_set.
Qed.

Lemma keeps_combineGrain P (aR aG aB lum glow : nat) len params :
  keeps σ0 (combineGrain P aR aG aB lum glow len params)
        (λ a, (length (u8c σ0) ≤ a)%nat).
Proof.
  unfold combineGrain.
  eapply keeps_bind; [apply keeps_new_Uint8ClampedArray|]. intros out Ho.
  eapply keeps_bind; [|intros _ _; by apply keeps_ret].
  apply keeps_iterate. intros k.
  do 6 (eapply keeps_bind; [by apply keeps_read; eexists|]; intros ? _).
  eapply keeps_bind; [apply keeps_random|]. intros rnd _.
  eapply keeps_bind; [by apply keeps_read; eexists|]. intros li _.
  by apply keeps_u8_set.
Qed.

Lemma keeps_softFocus P out w h len params :
  keeps σ0 (softFocus P out w h len params)
        (λ res, (length (u8c σ0) ≤ data res)%nat).
Proof.
  unfold softFocus.
  eapply keeps_bind; [apply keeps_blurSeparate|]. intros soft Hs.
  eapply keeps_bind; [apply keeps_new_Uint8ClampedArray|]. intros final Hf.
  eapply keeps_bind.
  { apply keeps_iterate. intros k.
    do 6 (eapply keeps_bind; [by apply keeps_read; eexists|]; intros ? _).
    by apply keeps_u8_set. }
  intros _ _. eapply keeps_weaken; [apply keeps_new_ImageData|].
  by intros res ->.
Qed.

Lemma keeps_applyFilmLook P imgData w h params :
  keeps σ0 (applyFilmLook P imgData w h params)
        (λ res, (length (u8c σ0) ≤ data res)%nat).
Proof.
  unfold applyFilmLook.
  eapply keeps_bind; [apply keeps_toneMapGrade|].
  intros [[[aR aG] aB] lum] _.
  eapply keeps_bind; [apply keeps_glowMask|]. intros mask _.
  eapply keeps_bind; [apply keeps_blur|]. intros glow _.
  eapply keeps_bind; [apply keeps_combineGrain|]. intros out _.
  apply keeps_softFocus.
Qed.

End Keeps.

(** C8: for every valid input buffer and every parameter set, running the
    pipeline leaves the pixel data of the input buffer unchanged, whether
    the run returns or throws: every array that existed before the run is as
    it was, and the result is an array allocated during the run.  (On a
    platform that provides a 2D context the run returns.) *)
Theorem applyFilmLook_preserves_input P imgData w h params σ :
  valid_input σ imgData w h →
  (getContext2d P = true →
   ∃ res σ', applyFilmLook P imgData w h params σ = Ok res σ') ∧
  match applyFilmLook P imgData w h params σ with
  | Ok res σ' =>
      bytes σ' (data imgData) = bytes σ (data imgData) ∧
      preserved σ σ' ∧ (length (u8c σ) ≤ data res)%nat
  | Throw _ σ' =>
      bytes σ' (data imgData) = bytes σ (data imgData) ∧ preserved σ σ'
  end.
Proof.
  intros (Ew & Eh & Hw & Hh & Hlive & Hlen). split.
  { intros Hctx. eexists _, _. by apply applyFilmLook_run. }
  pose proof (keeps_applyFilmLook σ P imgData w h params σ (preserved_refl σ))
    as Hkeep.
  destruct (applyFilmLook P imgData w h params σ) as [res σ'|e σ'].
  - destruct Hkeep as [Hpres Hfresh].
    split; [by apply preserved_bytes|done].
  - split; [by apply preserved_bytes|done].
Qed.

Lemma applyFilmLook_preserves_input_witness :
  valid_input grey_world grey_image 1 1 ∧
  (getContext2d unfiltered = true →
   ∃ res σ',
     applyFilmLook unfiltered grey_image 1 1 defaultParams grey_world
       = Ok res σ') ∧
  match applyFilmLook unfiltered grey_image 1 1 defaultParams grey_world with
  | Ok res σ' =>
      bytes σ' (data grey_image) = bytes grey_world (data grey_image) ∧
      preserved grey_world σ' ∧ (length (u8c grey_world) ≤ data res)%nat
  | Throw _ σ' =>
      bytes σ' (data grey_image) = bytes grey_world (data grey_image) ∧
      preserved grey_world σ'
  end.
Proof.
  split; [exact grey_valid|].
  apply (applyFilmLook_preserves_input unfiltered grey_image 1 1
           defaultParams grey_world).
  exact grey_valid.
Defined.

(** ** Dimensions that are not valid *)

Lemma applyFilmLook_no_context P imgData w h params σ :
  getContext2d P = false → (0 ≤ w * h)%Z →
  ∃ σ', applyFilmLook P imgData w h params σ
          = Throw (Error "2D context not available") σ'.
Proof.
  intros Hctx Hlen. eexists. unfold applyFilmLook.
  erewrite bind_Ok by (by apply toneMapGrade_run).
  cbv beta iota.
  erewrite bind_Ok by (by apply glowMask_run).
  apply bind_Throw. unfold blur. apply bind_Throw.
  unfold getContext. by rewrite Hctx.
Qed.


(** A run that returns had a 2D context. *)
Lemma applyFilmLook_Ok_context P imgData w h params σ res σ' :
  (0 ≤ w * h)%Z →
  applyFilmLook P imgData w h params σ = Ok res σ' →
  getContext2d P = true.
Proof.
  intros Hlen Hrun. destruct (getContext2d P) eqn:Hctx; [done|].
  destruct (applyFilmLook_no_context P imgData w h params σ Hctx Hlen)
    as [σ0 E].
  by rewrite E in Hrun.
Qed.




(** * Further properties of the pipeline *)

(** ** Pixels of the arrays the loops write *)

Lemma lookup_pixelAt l i c :
  pixelAt l i !! c = if decide (c < 4)%nat then l !! (i * 4 + c)%nat else None.
Proof. unfold pixelAt. by rewrite lookup_take, lookup_drop. Qed.

Lemma pixelAt_blocks (q : nat → list Z) n i :
  (∀ j, length (q j) = 4%nat) → (i < n)%nat → pixelAt (blocks q n) i = q i.
Proof.
  intros Hq Hi. apply list_eq. intros c. rewrite lookup_pixelAt.
  destruct (decide (c < 4)%nat) as [Hc|Hc].
  - by apply lookup_blocks.
  - symmetry. apply lookup_ge_None_2. rewrite Hq. lia.
Qed.

(** Two arrays of [n] pixels with the same pixels are equal. *)
Lemma pixels_eq l1 l2 n :
  length l1 = (n * 4)%nat → length l2 = (n * 4)%nat →
  (∀ i, (i < n)%nat → pixelAt l1 i = pixelAt l2 i) → l1 = l2.
Proof.
  intros H1 H2 Hpx. apply list_eq. intros k.
  destruct (decide (k < n * 4)%nat) as [Hk|Hk].
  - assert (E : k = ((k / 4) * 4 + k mod 4)%nat).
    { pose proof (Nat.div_mod_eq k 4). lia. }
    assert (Hq : (k / 4 < n)%nat) by (apply Nat.Div0.div_lt_upper_bound; lia).
    assert (Hr : (k mod 4 < 4)%nat) by (apply Nat.mod_upper_bound; lia).
    pose proof (f_equal (λ p, p !! (k mod 4)%nat) (Hpx _ Hq)) as Hc.
    cbv beta in Hc. rewrite !lookup_pixelAt in Hc.
    destruct (decide (k mod 4 < 4)%nat); [|lia]. by rewrite <- E in Hc.
  - by rewrite !lookup_ge_None_2 by lia.
Qed.

Lemma ToUint8Clamp_255 : ToUint8Clamp (Fin 255) = 255%Z.
Proof. unfold ToUint8Clamp. repeat destruct Rle_dec; try lra; done. Qed.

Lemma ToUint8Clamp_0 : ToUint8Clamp (Fin 0) = 0%Z.
Proof. unfold ToUint8Clamp. repeat destruct Rle_dec; try lra; done. Qed.

(** The shape of a pixel the last loop writes. *)
Lemma blendAt_shape params out soft i :
  ∃ r g b, blendAt params out soft i = [r; g; b; 255%Z] ∧
           byte r ∧ byte g ∧ byte b.
Proof.
  unfold blendAt, softBlend. cbn [fmap list_fmap]. rewrite ToUint8Clamp_255.
  eexists _, _, _. split; [done|].
  repeat split; apply ToUint8Clamp_range.
Qed.

Lemma final_pixel P imgData w h params σ i :
  (i < pixels w h)%nat →
  pixelAt (finalOf P params w h (bytes σ (data imgData)) (draws σ)) i =
    blendAt params (outOf P params w h (bytes σ (data imgData)) (draws σ))
            (softOf P params w h (bytes σ (data imgData)) (draws σ)) i.
Proof. intros Hi. unfold finalOf. by apply pixelAt_blocks. Qed.

(** The result array of a run, by [applyFilmLook_run]. *)
Lemma applyFilmLook_result P imgData w h params σ :
  getContext2d P = true →
  (0 < w < 2 ^ 31)%Z → (0 < h < 2 ^ 31)%Z →
  ∃ res σ',
    applyFilmLook P imgData w h params σ = Ok res σ' ∧
    bytes σ' (data res) =
      finalOf P params w h (bytes σ (data imgData)) (draws σ) ∧
    draws σ' = (draws σ + pixels w h)%nat ∧
    length (f32 σ') = (length (f32 σ) + 4)%nat ∧
    length (u8c σ') = (length (u8c σ) + 5)%nat.
Proof.
  intros Hctx Hw Hh. eexists _, _.
  split; [by apply applyFilmLook_run|].
  cbn [data]. rewrite (bytes_ext _ _ _ _ 4) by lia. slot.
  cbn [ext f32 u8c draws]. rewrite !length_app. done.
Qed.

(** X2: in a run that returns, every pixel of the output is opaque, whatever
    the alpha of the input was, and its three colour channels are bytes (the
    dimensions being positive and below 2^31, as they are whenever the
    canvas hands back pixels). *)
Theorem applyFilmLook_output_opaque P imgData w h params σ res σ' :
  (0 < w < 2 ^ 31)%Z → (0 < h < 2 ^ 31)%Z →
  applyFilmLook P imgData w h params σ = Ok res σ' →
  ∀ i, (i < Z.to_nat (w * h))%nat →
    ∃ r g b, pixelAt (bytes σ' (data res)) i = [r; g; b; 255%Z] ∧
             byte r ∧ byte g ∧ byte b.
Proof.
  intros Hw Hh Hrun i Hi.
  assert (Hctx : getContext2d P = true)
    by (apply (applyFilmLook_Ok_context P imgData w h params σ res σ');
        [nia | done]).
  destruct (applyFilmLook_result P imgData w h params σ)
    as (res0 & σ0 & Hrun0 & Hbytes & _); [done..|].
  rewrite Hrun in Hrun0. injection Hrun0 as <- <-.
  rewrite Hbytes, final_pixel by done. apply blendAt_shape.
Qed.

Lemma applyFilmLook_output_opaque_witness :
  (0 < 2 < 2 ^ 31)%Z ∧ (0 < 1 < 2 ^ 31)%Z ∧
  ∃ res σ',
    applyFilmLook unfiltered two_pixel_image 2 1 defaultParams two_pixel_world
      = Ok res σ' ∧
    ∀ i, (i < Z.to_nat (2 * 1))%nat →
      ∃ r g b, pixelAt (bytes σ' (data res)) i = [r; g; b; 255%Z] ∧
               byte r ∧ byte g ∧ byte b.
Proof.
  split; [lia|]. split; [lia|]. eexists _, _. split.
  - apply (applyFilmLook_run unfiltered two_pixel_image 2 1); [done|lia..].
  - apply (applyFilmLook_output_opaque unfiltered two_pixel_image 2 1
             defaultParams two_pixel_world); [lia | lia |].
    apply (applyFilmLook_run unfiltered two_pixel_image 2 1); [done|lia..].
Defined.

Lemma gradedAt_same_colours params px1 px2 i :
  same_colours px1 px2 → gradedAt params px1 i = gradedAt params px2 i.
Proof.
  intros Hsame. unfold gradedAt, sample.
  rewrite (Hsame (i * 4)%nat), (Hsame (i * 4 + 1)%nat),
    (Hsame (i * 4 + 2)%nat); [done|..].
  - rewrite Nat.add_comm, Nat.Div0.mod_add. done.
  - rewrite Nat.add_comm, Nat.Div0.mod_add. done.
  - rewrite Nat.Div0.mod_mul. done.
Qed.

Lemma finalOf_same_colours P params w h px1 px2 d0 :
  same_colours px1 px2 →
  finalOf P params w h px1 d0 = finalOf P params w h px2 d0.
Proof.
  intros Hsame.
  assert (ER : gradedR params w h px1 = gradedR params w h px2).
  { unfold gradedR. apply list_fmap_ext. intros _ i _.
    by rewrite (gradedAt_same_colours _ _ _ _ Hsame). }
  assert (EG : gradedG params w h px1 = gradedG params w h px2).
  { unfold gradedG. apply list_fmap_ext. intros _ i _.
    by rewrite (gradedAt_same_colours _ _ _ _ Hsame). }
  assert (EB : gradedB params w h px1 = gradedB params w h px2).
  { unfold gradedB. apply list_fmap_ext. intros _ i _.
    by rewrite (gradedAt_same_colours _ _ _ _ Hsame). }
  assert (EL : lumOf params w h px1 = lumOf params w h px2).
  { unfold lumOf. apply list_fmap_ext. intros _ i _.
    by rewrite (gradedAt_same_colours _ _ _ _ Hsame). }
  unfold finalOf, softOf, outOf, glowOf, maskOf.
  by rewrite ER, EG, EB, EL.
Qed.

(** X3: the alpha channel of the input is ignored: two inputs that agree on
    the colour bytes of every pixel give the same output bytes (under the
    same draws of [Math.random]). *)
Theorem applyFilmLook_ignores_alpha P img1 img2 w h params σ1 σ2 :
  getContext2d P = true →
  (0 < w < 2 ^ 31)%Z → (0 < h < 2 ^ 31)%Z →
  same_colours (bytes σ1 (data img1)) (bytes σ2 (data img2)) →
  draws σ1 = draws σ2 →
  ∃ res1 σ1' res2 σ2',
    applyFilmLook P img1 w h params σ1 = Ok res1 σ1' ∧
    applyFilmLook P img2 w h params σ2 = Ok res2 σ2' ∧
    bytes σ1' (data res1) = bytes σ2' (data res2).
Proof.
  intros Hctx Hw Hh Hsame Hdraws.
  destruct (applyFilmLook_result P img1 w h params σ1)
    as (res1 & σ1' & Hrun1 & Hbytes1 & _); [done..|].
  destruct (applyFilmLook_result P img2 w h params σ2)
    as (res2 & σ2' & Hrun2 & Hbytes2 & _); [done..|].
  exists res1, σ1', res2, σ2'. split; [done|]. split; [done|].
  rewrite Hbytes1, Hbytes2, Hdraws. by apply finalOf_same_colours.
Qed.

Lemma applyFilmLook_ignores_alpha_witness :
  getContext2d unfiltered = true ∧
  same_colours (bytes two_pixel_world 0) (bytes translucent_world 0) ∧
  ∃ res1 σ1' res2 σ2',
    applyFilmLook unfiltered two_pixel_image 2 1 defaultParams two_pixel_world
      = Ok res1 σ1' ∧
    applyFilmLook unfiltered two_pixel_image 2 1 defaultParams
                  translucent_world = Ok res2 σ2' ∧
    bytes σ1' (data res1) = bytes σ2' (data res2).
Proof.
  assert (Hsame : same_colours (bytes two_pixel_world 0)
                               (bytes translucent_world 0)).
  { intros k Hk. do 8 (destruct k as [|k]; [done || (exfalso; by apply Hk)|]).
    done. }
  split; [reflexivity|]. split; [exact Hsame|].
  apply (applyFilmLook_ignores_alpha unfiltered two_pixel_image
           two_pixel_image 2 1 defaultParams two_pixel_world
           translucent_world); [reflexivity | lia | lia | exact Hsame | reflexivity].
Defined.

(** X4: a run that returns has called [Math.random] exactly once per pixel,
    whatever [grainStrength] is, and has allocated four Float32Arrays and
    five Uint8ClampedArrays. *)
Theorem applyFilmLook_draws_and_allocations P imgData w h params σ :
  getContext2d P = true →
  (0 < w < 2 ^ 31)%Z → (0 < h < 2 ^ 31)%Z →
  ∃ res σ',
    applyFilmLook P imgData w h params σ = Ok res σ' ∧
    draws σ' = (draws σ + Z.to_nat (w * h))%nat ∧
    length (f32 σ') = (length (f32 σ) + 4)%nat ∧
    length (u8c σ') = (length (u8c σ) + 5)%nat.
Proof.
  intros Hctx Hw Hh.
  destruct (applyFilmLook_result P imgData w h params σ)
    as (res & σ' & Hrun & _ & Hrest); [done..|].
  by exists res, σ'.
Qed.

Lemma applyFilmLook_draws_and_allocations_witness :
  getContext2d unfiltered = true ∧
  ∃ res σ',
    applyFilmLook unfiltered grey_image 1 1 neutral grey_world = Ok res σ' ∧
    draws σ' = (draws grey_world + Z.to_nat (1 * 1))%nat ∧
    length (f32 σ') = (length (f32 grey_world) + 4)%nat ∧
    length (u8c σ') = (length (u8c grey_world) + 5)%nat.
Proof.
  split; [reflexivity|].
  apply (applyFilmLook_draws_and_allocations unfiltered grey_image 1 1
           neutral grey_world); [reflexivity | lia | lia].
Defined.



(** ** The glow mask, further *)

Lemma maskAt_cases params lum i :
  (maskAt params lum i = lit ∧
   ∃ l, lum !! i = Some (Fin l) ∧ glowThreshold params < l) ∨
  (maskAt params lum i = unlit ∧
   ∀ l, lum !! i = Some (Fin l) → l <= glowThreshold params).
Proof.
  destruct (lum !! i) as [[l|]|] eqn:E.
  - destruct (Rlt_dec (glowThreshold params) l) as [Hlt|Hge].
    + left. split; [by apply (maskAt_gt _ _ _ l)|by exists l].
    + right. split; [apply (maskAt_le _ _ _ l); [done|lra]|].
      intros l' [= <-]. lra.
  - right. split; [|done]. unfold maskAt, maskValue. rewrite E.
    cbn [default from_option Datatypes.id gt fmap list_fmap].
    by rewrite ToUint8Clamp_0, ToUint8Clamp_255.
  - right. split; [|done]. unfold maskAt, maskValue. rewrite E.
    cbn [default from_option Datatypes.id gt fmap list_fmap].
    by rewrite ToUint8Clamp_0, ToUint8Clamp_255.
Qed.

Lemma glowMask_pixels lum len params σ :
  (0 ≤ len)%Z →
  ∃ mask σ',
    glowMask lum len params σ = Ok mask σ' ∧
    length (bytes σ' mask) = (Z.to_nat len * 4)%nat ∧
    ∀ i, (i < Z.to_nat len)%nat →
      pixelAt (bytes σ' mask) i = maskAt params (floats σ lum) i.
Proof.
  intros Hlen. eexists _, _. split; [by apply glowMask_run|].
  rewrite (bytes_ext _ _ _ _ 0) by lia. slot.
  split; [by apply length_blocks|]. intros i Hi. by apply pixelAt_blocks.
Qed.

(** X6: the glow mask is binary, grey and opaque: every pixel is
    (255, 255, 255, 255), exactly when its luminance is a number above the
    threshold, or else (0, 0, 0, 255); a [NaN] luminance is unlit. *)
Theorem glowMask_is_binary lum len params σ :
  (0 ≤ len)%Z →
  ∃ mask σ',
    glowMask lum len params σ = Ok mask σ' ∧
    length (bytes σ' mask) = (Z.to_nat len * 4)%nat ∧
    ∀ i, (i < Z.to_nat len)%nat →
      (pixelAt (bytes σ' mask) i = lit ∧
       ∃ l, floats σ lum !! i = Some (Fin l) ∧ glowThreshold params < l) ∨
      (pixelAt (bytes σ' mask) i = unlit ∧
       ∀ l, floats σ lum !! i = Some (Fin l) → l <= glowThreshold params).
Proof.
  intros Hlen.
  destruct (glowMask_pixels lum len params σ Hlen)
    as (mask & σ' & Hrun & Hl & Hpx).
  exists mask, σ'. split; [done|]. split; [done|]. intros i Hi.
  rewrite Hpx by done. apply maskAt_cases.
Qed.

Lemma glowMask_is_binary_witness :
  (0 ≤ 3)%Z ∧
  ∃ mask σ',
    glowMask 0 3 defaultParams lum3_world = Ok mask σ' ∧
    length (bytes σ' mask) = (Z.to_nat 3 * 4)%nat ∧
    ∀ i, (i < Z.to_nat 3)%nat →
      (pixelAt (bytes σ' mask) i = lit ∧
       ∃ l, floats lum3_world 0 !! i = Some (Fin l) ∧
            glowThreshold defaultParams < l) ∨
      (pixelAt (bytes σ' mask) i = unlit ∧
       ∀ l, floats lum3_world 0 !! i = Some (Fin l) →
            l <= glowThreshold defaultParams).
Proof.
  split; [lia|].
  apply (glowMask_is_binary 0 3 defaultParams lum3_world). lia.
Defined.

(** X7: raising the glow threshold never lights a pixel: a pixel lit under
    the higher threshold is lit under the lower one (for the same
    luminance array). *)
Theorem glowMask_monotone lum len params σ (t1 t2 : R) :
  (0 ≤ len)%Z → t1 <= t2 →
  ∃ m1 σ1 m2 σ2,
    glowMask lum len (setParam params key_glowThreshold t1) σ = Ok m1 σ1 ∧
    glowMask lum len (setParam params key_glowThreshold t2) σ = Ok m2 σ2 ∧
    ∀ i, (i < Z.to_nat len)%nat →
      pixelAt (bytes σ2 m2) i = lit → pixelAt (bytes σ1 m1) i = lit.
Proof.
  intros Hlen Ht.
  destruct (glowMask_pixels lum len (setParam params key_glowThreshold t1) σ
              Hlen) as (m1 & σ1 & Hrun1 & _ & Hpx1).
  destruct (glowMask_pixels lum len (setParam params key_glowThreshold t2) σ
              Hlen) as (m2 & σ2 & Hrun2 & _ & Hpx2).
  exists m1, σ1, m2, σ2. split; [done|]. split; [done|].
  intros i Hi. rewrite Hpx1, Hpx2 by done. intros Hlit.
  destruct (maskAt_cases (setParam params key_glowThreshold t2)
              (floats σ lum) i) as [[_ (l & El & Hl)]|[Hun _]].
  - apply (maskAt_gt _ _ _ l); [done|]. cbn [setParam glowThreshold] in *. lra.
  - rewrite Hun in Hlit. discriminate.
Qed.

Lemma glowMask_monotone_witness :
  (0 ≤ 3)%Z ∧ 0.5 <= 0.7 ∧
  ∃ m1 σ1 m2 σ2,
    glowMask 0 3 (setParam defaultParams key_glowThreshold 0.5) lum3_world
      = Ok m1 σ1 ∧
    glowMask 0 3 (setParam defaultParams key_glowThreshold 0.7) lum3_world
      = Ok m2 σ2 ∧
    ∀ i, (i < Z.to_nat 3)%nat →
      pixelAt (bytes σ2 m2) i = lit → pixelAt (bytes σ1 m1) i = lit.
Proof.
  split; [lia|]. split; [lra|].
  apply (glowMask_monotone 0 3 defaultParams lum3_world 0.5 0.7); [lia|lra].
Defined.

(** ** Rounding to a byte is monotone *)

Lemma Int_part_le x y : x <= y → (Int_part x ≤ Int_part y)%Z.
Proof.
  intros Hxy. destruct (base_Int_part x), (base_Int_part y).
  apply Z.lt_succ_r, lt_IZR. rewrite succ_IZR. lra.
Qed.

Lemma ToUint8Clamp_mono x y :
  x <= y → (ToUint8Clamp (Fin x) ≤ ToUint8Clamp (Fin y))%Z.
Proof.
  intros Hxy.
  pose proof (ToUint8Clamp_range (Fin x)) as Hx.
  pose proof (ToUint8Clamp_range (Fin y)) as Hy.
  unfold ToUint8Clamp in *.
  destruct (Rle_dec x 0); [lia|].
  destruct (Rle_dec 255 x).
  { destruct (Rle_dec y 0); [lra|]. destruct (Rle_dec 255 y); [lia|lra]. }
  destruct (Rle_dec y 0); [lra|].
  destruct (Rle_dec 255 y); [lia|].
  pose proof (Int_part_le x y Hxy) as Hf.
  destruct (Z.eq_dec (Int_part x) (Int_part y)) as [E|Hne].
  - rewrite E in *. clear Hx Hy.
    repeat destruct Rlt_dec; destruct (Z.even (Int_part y));
      try lia; exfalso; lra.
  - clear Hx Hy.
    repeat destruct Rlt_dec; repeat destruct (Z.even _); lia.
Qed.

Lemma ToUint8Clamp_between x (lo hi : Z) :
  byte lo → byte hi → IZR lo <= x <= IZR hi →
  (lo ≤ ToUint8Clamp (Fin x) ≤ hi)%Z.
Proof.
  intros Hlo Hhi [H1 H2].
  apply ToUint8Clamp_mono in H1, H2.
  rewrite ToUint8Clamp_IZR in H1, H2 by done. lia.
Qed.

Lemma nle_refl a : nle a a.
Proof. destruct a; simpl; [lra|done]. Qed.

Lemma nadd_mono a b c d : nle a b → nle c d → nle (a + c)%num (b + d)%num.
Proof. destruct a, b, c, d; simpl; try done; lra. Qed.

Lemma nmul_mono_r a b k : 0 <= k → nle a b → nle (a * Fin k)%num (b * Fin k)%num.
Proof. intros Hk. destruct a, b; simpl; try done. intros H. nra. Qed.

Lemma clamp_mono a b : nle a b → nle (clamp a) (clamp b).
Proof.
  destruct a as [x|], b as [y|]; try done. rewrite !clamp_Fin. simpl.
  unfold clamp01. repeat destruct Rlt_dec; lra.
Qed.

Lemma ToUint8Clamp_nle a b :
  nle a b → (ToUint8Clamp a ≤ ToUint8Clamp b)%Z.
Proof.
  destruct a as [x|], b as [y|]; try done. apply ToUint8Clamp_mono.
Qed.

(** ** Soft focus, further *)

Lemma lookup_pixelsOf c n k :
  (k < n * 4)%nat → pixelsOf c n !! k = Some (c k).
Proof. intros Hk. unfold pixelsOf. by apply lookup_fmap_seq. Qed.

(** The pixels of the result of the soft-focus stage. *)
Lemma softFocus_pixels P out w h params σ :
  getContext2d P = true →
  (0 < w < 2 ^ 31)%Z → (0 < h < 2 ^ 31)%Z →
  (out < length (u8c σ))%nat →
  length (bytes σ out) = (Z.to_nat (w * h) * 4)%nat →
  ∃ res σ',
    softFocus P out w h (w * h) params σ = Ok res σ' ∧
    data res = (length (u8c σ) + 1)%nat ∧
    length (bytes σ' (data res)) = (Z.to_nat (w * h) * 4)%nat ∧
    ∀ i, (i < Z.to_nat (w * h))%nat →
      pixelAt (bytes σ' (data res)) i =
        blendAt params (bytes σ out)
          (pixelsOf (softened P params w h (bytes σ out)) (Z.to_nat (w * h)))
          i.
Proof.
  intros Hctx Hw Hh Hlive Hlen. eexists _, _.
  split; [by apply softFocus_run|].
  cbn [data]. rewrite (bytes_ext _ _ _ _ 1) by lia. slot.
  split; [done|].
  split; [by apply length_blocks|]. intros i Hi. by apply pixelAt_blocks.
Qed.

(** A pixel of the last loop, from the bytes it reads. *)
Lemma blendAt_bytes params out soft i (o0 o1 o2 b0 b1 b2 : Z) :
  out !! (i * 4)%nat = Some o0 → out !! (i * 4 + 1)%nat = Some o1 →
  out !! (i * 4 + 2)%nat = Some o2 →
  soft !! (i * 4)%nat = Some b0 → soft !! (i * 4 + 1)%nat = Some b1 →
  soft !! (i * 4 + 2)%nat = Some b2 →
  let s := softFocusStrength params in
  blendAt params out soft i =
    [ToUint8Clamp (Fin ((IZR o0 / 255 * (1 - s) + IZR b0 / 255 * s) * 255));
     ToUint8Clamp (Fin ((IZR o1 / 255 * (1 - s) + IZR b1 / 255 * s) * 255));
     ToUint8Clamp (Fin ((IZR o2 / 255 * (1 - s) + IZR b2 / 255 * s) * 255));
     255%Z].
Proof.
  intros Ho0 Ho1 Ho2 Hb0 Hb1 Hb2 s. unfold blendAt, softBlend.
  rewrite (sample_lookup _ _ _ Ho0), (sample_lookup _ _ _ Ho1),
    (sample_lookup _ _ _ Ho2), (sample_lookup _ _ _ Hb0),
    (sample_lookup _ _ _ Hb1), (sample_lookup _ _ _ Hb2).
  cbn [ndiv nadd nsub nmul lift2 fmap list_fmap].
  by rewrite ToUint8Clamp_255.
Qed.

(** The bytes the last loop reads for pixel [i] of [n]. *)
Lemma blend_inputs (out : list Z) (c : surface) n i :
  length out = (n * 4)%nat → (i < n)%nat →
  ∃ o0 o1 o2 o3,
    out !! (i * 4)%nat = Some o0 ∧ out !! (i * 4 + 1)%nat = Some o1 ∧
    out !! (i * 4 + 2)%nat = Some o2 ∧ out !! (i * 4 + 3)%nat = Some o3 ∧
    pixelAt out i = [o0; o1; o2; o3] ∧
    pixelsOf c n !! (i * 4)%nat = Some (c (i * 4)%nat) ∧
    pixelsOf c n !! (i * 4 + 1)%nat = Some (c (i * 4 + 1)%nat) ∧
    pixelsOf c n !! (i * 4 + 2)%nat = Some (c (i * 4 + 2)%nat).
Proof.
  intros Hlen Hi.
  destruct (lookup_lt_is_Some_2 out (i * 4)) as [o0 H0]; [lia|].
  destruct (lookup_lt_is_Some_2 out (i * 4 + 1)) as [o1 H1]; [lia|].
  destruct (lookup_lt_is_Some_2 out (i * 4 + 2)) as [o2 H2]; [lia|].
  destruct (lookup_lt_is_Some_2 out (i * 4 + 3)) as [o3 H3]; [lia|].
  exists o0, o1, o2, o3. repeat split; try done.
  - apply list_eq. intros k. rewrite lookup_pixelAt.
    destruct (decide (k < 4)%nat) as [Hk|Hk].
    + destruct k as [|[|[|[|k]]]];
        [rewrite Nat.add_0_r, H0 | rewrite H1 | rewrite H2 | rewrite H3 | lia];
        done.
    + destruct k as [|[|[|[|k]]]]; try lia; done.
  - apply lookup_pixelsOf. lia.
  - apply lookup_pixelsOf. lia.
  - apply lookup_pixelsOf. lia.
Qed.

Lemma blend_value_between (o b : Z) (s : R) :
  0 <= s <= 1 →
  IZR (Z.min o b) <= (IZR o / 255 * (1 - s) + IZR b / 255 * s) * 255
    <= IZR (Z.max o b).
Proof.
  intros Hs.
  replace ((IZR o / 255 * (1 - s) + IZR b / 255 * s) * 255)
    with (IZR o * (1 - s) + IZR b * s) by lra.
  destruct (Z.le_ge_cases o b) as [Hle|Hle].
  - rewrite Z.min_l, Z.max_r by done. apply IZR_le in Hle. nra.
  - rewrite Z.min_r, Z.max_l by done. apply IZR_le in Hle. nra.
Qed.

(** X9: with [softFocusStrength] 0 the soft-focus stage returns a copy of
    its input: a fresh array with the same bytes (the input holding opaque
    pixels, as the combine loop writes them); the blur has no effect. *)
Theorem softFocus_off_copies P out w h params σ :
  getContext2d P = true →
  (0 < w < 2 ^ 31)%Z → (0 < h < 2 ^ 31)%Z →
  (out < length (u8c σ))%nat →
  length (bytes σ out) = (Z.to_nat (w * h) * 4)%nat →
  Forall byte (bytes σ out) →
  (∀ i, (i < Z.to_nat (w * h))%nat →
        bytes σ out !! (i * 4 + 3)%nat = Some 255%Z) →
  softFocusStrength params = 0 →
  ∃ res σ',
    softFocus P out w h (w * h) params σ = Ok res σ' ∧
    data res ≠ out ∧
    bytes σ' (data res) = bytes σ out.
Proof.
  intros Hctx Hw Hh Hlive Hlen Hbytes Halpha Hs.
  destruct (softFocus_pixels P out w h params σ)
    as (res & σ' & Hrun & Hres & Hl & Hpx); [done..|].
  exists res, σ'. split; [done|]. split; [lia|].
  apply (pixels_eq _ _ (Z.to_nat (w * h))); [done..|]. intros i Hi.
  rewrite Hpx by done.
  destruct (blend_inputs (bytes σ out) (softened P params w h (bytes σ out))
              (Z.to_nat (w * h)) i)
    as (o0 & o1 & o2 & o3 & H0 & H1 & H2 & H3 & -> & B0 & B1 & B2); [done..|].
  rewrite (blendAt_bytes _ _ _ _ _ _ _ _ _ _ H0 H1 H2 B0 B1 B2), Hs.
  rewrite (Halpha i Hi) in H3. injection H3 as <-.
  rewrite Forall_lookup in Hbytes.
  repeat match goal with
  | |- context [ToUint8Clamp (Fin ((IZR ?o / 255 * (1 - 0) + ?b * 0) * 255))] =>
      replace ((IZR o / 255 * (1 - 0) + b * 0) * 255) with (IZR o) by lra
  end.
  rewrite (ToUint8Clamp_IZR o0), (ToUint8Clamp_IZR o1), (ToUint8Clamp_IZR o2)
    by (eapply Hbytes; eassumption).
  done.
Qed.

Lemma softFocus_off_copies_witness :
  getContext2d unfiltered = true ∧
  (0 < length (u8c pixel_world))%nat ∧
  length (bytes pixel_world 0) = (Z.to_nat (1 * 1) * 4)%nat ∧
  Forall byte (bytes pixel_world 0) ∧
  softFocusStrength neutral = 0 ∧
  ∃ res σ',
    softFocus unfiltered 0 1 1 (1 * 1) neutral pixel_world = Ok res σ' ∧
    data res ≠ 0%nat ∧
    bytes σ' (data res) = bytes pixel_world 0.
Proof.
  assert (Hb : Forall byte (bytes pixel_world 0)).
  { repeat constructor; unfold byte; lia. }
  split; [reflexivity|]. split; [simpl; lia|]. split; [reflexivity|].
  split; [exact Hb|]. split; [reflexivity|].
  apply (softFocus_off_copies unfiltered 0 1 1 neutral pixel_world);
    [reflexivity | lia | lia | simpl; lia | reflexivity | exact Hb | |
     reflexivity].
  intros i Hi. destruct i; [reflexivity|simpl in Hi; lia].
Defined.

(** X10: with [softFocusStrength] 1 the colour channels of the output of
    the soft-focus stage are those of the blurred image, the sharp image
    contributing nothing; the alpha is 255. *)
Theorem softFocus_full_is_blurred P out w h params σ :
  getContext2d P = true →
  (0 < w < 2 ^ 31)%Z → (0 < h < 2 ^ 31)%Z →
  (out < length (u8c σ))%nat →
  length (bytes σ out) = (Z.to_nat (w * h) * 4)%nat →
  (∀ k, byte (softened P params w h (bytes σ out) k)) →
  softFocusStrength params = 1 →
  ∃ res σ',
    softFocus P out w h (w * h) params σ = Ok res σ' ∧
    ∀ i, (i < Z.to_nat (w * h))%nat →
      pixelAt (bytes σ' (data res)) i =
        [softened P params w h (bytes σ out) (i * 4)%nat;
         softened P params w h (bytes σ out) (i * 4 + 1)%nat;
         softened P params w h (bytes σ out) (i * 4 + 2)%nat;
         255%Z].
Proof.
  intros Hctx Hw Hh Hlive Hlen Hsoft Hs.
  destruct (softFocus_pixels P out w h params σ)
    as (res & σ' & Hrun & Hres & Hl & Hpx); [done..|].
  exists res, σ'. split; [done|]. intros i Hi.
  rewrite Hpx by done.
  destruct (blend_inputs (bytes σ out) (softened P params w h (bytes σ out))
              (Z.to_nat (w * h)) i)
    as (o0 & o1 & o2 & o3 & H0 & H1 & H2 & H3 & _ & B0 & B1 & B2); [done..|].
  rewrite (blendAt_bytes _ _ _ _ _ _ _ _ _ _ H0 H1 H2 B0 B1 B2), Hs.
  repeat match goal with
  | |- context [ToUint8Clamp (Fin ((?o * (1 - 1) + IZR ?b / 255 * 1) * 255))] =>
      replace ((o * (1 - 1) + IZR b / 255 * 1) * 255) with (IZR b) by lra
  end.
  by rewrite !ToUint8Clamp_IZR by apply Hsoft.
Qed.

Lemma softFocus_full_is_blurred_witness :
  getContext2d greying = true ∧
  (0 < length (u8c pixel_world))%nat ∧
  length (bytes pixel_world 0) = (Z.to_nat (1 * 1) * 4)%nat ∧
  (∀ k, byte (softened greying (setParam neutral key_softFocusStrength 1)
                       1 1 (bytes pixel_world 0) k)) ∧
  ∃ res σ',
    softFocus greying 0 1 1 (1 * 1)
              (setParam neutral key_softFocusStrength 1) pixel_world
      = Ok res σ' ∧
    ∀ i, (i < Z.to_nat (1 * 1))%nat →
      pixelAt (bytes σ' (data res)) i = [128; 128; 128; 255]%Z.
Proof.
  assert (Hb : ∀ k, byte (softened greying
                            (setParam neutral key_softFocusStrength 1)
                            1 1 (bytes pixel_world 0) k)).
  { intros k. unfold byte. simpl. lia. }
  split; [reflexivity|]. split; [simpl; lia|]. split; [reflexivity|].
  split; [exact Hb|].
  apply (softFocus_full_is_blurred greying 0 1 1
           (setParam neutral key_softFocusStrength 1) pixel_world);
    [reflexivity | lia | lia | simpl; lia | reflexivity | exact Hb |
     reflexivity].
Defined.

(** X11: for a [softFocusStrength] within [0, 1] the blend never
    overshoots: every colour byte of the output of the soft-focus stage lies
    between the sharp byte and the blurred byte it is mixed from. *)
Theorem softFocus_between P out w h params σ :
  getContext2d P = true →
  (0 < w < 2 ^ 31)%Z → (0 < h < 2 ^ 31)%Z →
  (out < length (u8c σ))%nat →
  length (bytes σ out) = (Z.to_nat (w * h) * 4)%nat →
  Forall byte (bytes σ out) →
  (∀ k, byte (softened P params w h (bytes σ out) k)) →
  0 <= softFocusStrength params <= 1 →
  ∃ res σ',
    softFocus P out w h (w * h) params σ = Ok res σ' ∧
    ∀ i, (i < Z.to_nat (w * h))%nat →
      ∃ o0 o1 o2 o3 f0 f1 f2,
        pixelAt (bytes σ out) i = [o0; o1; o2; o3] ∧
        pixelAt (bytes σ' (data res)) i = [f0; f1; f2; 255%Z] ∧
        between o0 (softened P params w h (bytes σ out) (i * 4)%nat) f0 ∧
        between o1 (softened P params w h (bytes σ out) (i * 4 + 1)%nat) f1 ∧
        between o2 (softened P params w h (bytes σ out) (i * 4 + 2)%nat) f2.
Proof.
  intros Hctx Hw Hh Hlive Hlen Hbytes Hsoft Hs.
  destruct (softFocus_pixels P out w h params σ)
    as (res & σ' & Hrun & Hres & Hl & Hpx); [done..|].
  exists res, σ'. split; [done|]. intros i Hi.
  rewrite Hpx by done.
  destruct (blend_inputs (bytes σ out) (softened P params w h (bytes σ out))
              (Z.to_nat (w * h)) i)
    as (o0 & o1 & o2 & o3 & H0 & H1 & H2 & H3 & E & B0 & B1 & B2); [done..|].
  rewrite (blendAt_bytes _ _ _ _ _ _ _ _ _ _ H0 H1 H2 B0 B1 B2).
  rewrite Forall_lookup in Hbytes.
  assert (Hbetween : ∀ o b, byte o → byte b →
            between o b (ToUint8Clamp (Fin
              ((IZR o / 255 * (1 - softFocusStrength params)
                + IZR b / 255 * softFocusStrength params) * 255)))).
  { intros o b Ho Hb. unfold between, byte in *.
    apply ToUint8Clamp_between; [unfold byte; lia..|].
    by apply blend_value_between. }
  eexists o0, o1, o2, o3, _, _, _. split; [done|]. split; [done|].
  repeat split; apply Hbetween; eauto.
Qed.

Lemma softFocus_between_witness :
  getContext2d greying = true ∧
  (0 < length (u8c pixel_world))%nat ∧
  length (bytes pixel_world 0) = (Z.to_nat (1 * 1) * 4)%nat ∧
  Forall byte (bytes pixel_world 0) ∧
  (∀ k, byte (softened greying defaultParams 1 1 (bytes pixel_world 0) k)) ∧
  0 <= softFocusStrength defaultParams <= 1 ∧
  ∃ res σ',
    softFocus greying 0 1 1 (1 * 1) defaultParams pixel_world = Ok res σ' ∧
    ∀ i, (i < Z.to_nat (1 * 1))%nat →
      ∃ o0 o1 o2 o3 f0 f1 f2,
        pixelAt (bytes pixel_world 0) i = [o0; o1; o2; o3] ∧
        pixelAt (bytes σ' (data res)) i = [f0; f1; f2; 255%Z] ∧
        between o0 128 f0 ∧ between o1 128 f1 ∧ between o2 128 f2.
Proof.
  assert (Hb : Forall byte (bytes pixel_world 0)).
  { repeat constructor; unfold byte; lia. }
  assert (Hs : ∀ k, byte (softened greying defaultParams 1 1
                                   (bytes pixel_world 0) k)).
  { intros k. unfold byte. simpl. lia. }
  split; [reflexivity|]. split; [simpl; lia|]. split; [reflexivity|].
  split; [exact Hb|]. split; [exact Hs|]. split; [simpl; lra|].
  apply (softFocus_between greying 0 1 1 defaultParams pixel_world);
    [reflexivity | lia | lia | simpl; lia | reflexivity | exact Hb | exact Hs |
     simpl; lra].
Defined.

(** ** Glow, further *)

Lemma combine_no_glow params Ri Gi Bi li a0 a1 a2 b0 b1 b2 rnd :
  glowStrength params = 0 →
  combine params Ri Gi Bi li (Fin a0) (Fin a1) (Fin a2) rnd =
  combine params Ri Gi Bi li (Fin b0) (Fin b1) (Fin b2) rnd.
Proof.
  intros Hglow. unfold combine. rewrite Hglow.
  assert (E : ∀ g, (Fin g / Fin 255 * Fin 0)%num = Fin 0).
  { intros g. cbn [ndiv nmul lift2]. f_equal. lra. }
  by rewrite !E.
Qed.

Lemma finalOf_no_glow P params w h px d0 t b :
  glowStrength params = 0 →
  finalOf P params w h px d0 =
  finalOf P (setParam (setParam params key_glowThreshold t) key_glowBlur b)
          w h px d0.
Proof.
  intros Hglow.
  set (params' := setParam (setParam params key_glowThreshold t)
                           key_glowBlur b).
  assert (E : outOf P params w h px d0 = outOf P params' w h px d0).
  { unfold outOf. apply blocks_ext. intros i Hi. unfold combineAt.
    destruct (sample_lt (glowOf P params w h px) (i * 4)) as [a0 ->];
      [unfold glowOf; rewrite length_pixelsOf; lia|].
    destruct (sample_lt (glowOf P params w h px) (i * 4 + 1)) as [a1 ->];
      [unfold glowOf; rewrite length_pixelsOf; lia|].
    destruct (sample_lt (glowOf P params w h px) (i * 4 + 2)) as [a2 ->];
      [unfold glowOf; rewrite length_pixelsOf; lia|].
    destruct (sample_lt (glowOf P params' w h px) (i * 4)) as [b0 ->];
      [unfold glowOf; rewrite length_pixelsOf; lia|].
    destruct (sample_lt (glowOf P params' w h px) (i * 4 + 1)) as [b1 ->];
      [unfold glowOf; rewrite length_pixelsOf; lia|].
    destruct (sample_lt (glowOf P params' w h px) (i * 4 + 2)) as [b2 ->];
      [unfold glowOf; rewrite length_pixelsOf; lia|].
    rewrite (combine_no_glow params _ _ _ _ (IZR a0) (IZR a1) (IZR a2)
               (IZR b0) (IZR b1) (IZR b2)) by done.
    done. }
  unfold finalOf, softOf. rewrite E. done.
Qed.

(** X8: with [glowStrength] 0 the glow threshold and the glow blur radius
    have no effect on the output: whatever values the two sliders are set
    to, the output bytes are the same. *)
Theorem applyFilmLook_glow_off P imgData w h params σ (t b : R) :
  getContext2d P = true →
  (0 < w < 2 ^ 31)%Z → (0 < h < 2 ^ 31)%Z →
  glowStrength params = 0 →
  ∃ res1 σ1 res2 σ2,
    applyFilmLook P imgData w h params σ = Ok res1 σ1 ∧
    applyFilmLook P imgData w h
      (setParam (setParam params key_glowThreshold t) key_glowBlur b) σ
      = Ok res2 σ2 ∧
    bytes σ1 (data res1) = bytes σ2 (data res2).
Proof.
  intros Hctx Hw Hh Hglow.
  destruct (applyFilmLook_result P imgData w h params σ)
    as (res1 & σ1 & Hrun1 & Hbytes1 & _); [done..|].
  destruct (applyFilmLook_result P imgData w h
              (setParam (setParam params key_glowThreshold t) key_glowBlur b)
              σ)
    as (res2 & σ2 & Hrun2 & Hbytes2 & _); [done..|].
  exists res1, σ1, res2, σ2. split; [done|]. split; [done|].
  rewrite Hbytes1, Hbytes2. by apply finalOf_no_glow.
Qed.

Lemma applyFilmLook_glow_off_witness :
  getContext2d unfiltered = true ∧ glowStrength neutral = 0 ∧
  ∃ res1 σ1 res2 σ2,
    applyFilmLook unfiltered grey_image 1 1 neutral grey_world = Ok res1 σ1 ∧
    applyFilmLook unfiltered grey_image 1 1
      (setParam (setParam neutral key_glowThreshold 0.1) key_glowBlur 3)
      grey_world = Ok res2 σ2 ∧
    bytes σ1 (data res1) = bytes σ2 (data res2).
Proof.
  split; [reflexivity|]. split; [reflexivity|].
  apply (applyFilmLook_glow_off unfiltered grey_image 1 1 neutral grey_world
           0.1 3); [reflexivity | lia | lia | reflexivity].
Defined.

Lemma Forall2_blocks {A} (R : A → A → Prop) (q q' : nat → list A) n :
  (∀ i, (i < n)%nat → Forall2 R (q i) (q' i)) →
  Forall2 R (blocks q n) (blocks q' n).
Proof.
  intros Hq. induction n as [|n IH]; [by constructor|].
  rewrite !blocks_S. apply Forall2_app; [apply IH; intros; apply Hq; lia|].
  apply Hq. lia.
Qed.

Lemma sample_nonneg (l : list Z) k :
  Forall (λ z, (0 ≤ z)%Z) l →
  sample l k = NaN ∨ ∃ x, sample l k = Fin x ∧ 0 <= x.
Proof.
  intros Hl. unfold sample. destruct (l !! k) as [z|] eqn:E; [|by left].
  right. exists (IZR z). split; [done|].
  apply IZR_le. by apply (Forall_lookup_1 _ _ _ _ Hl E).
Qed.

Lemma glow_term_mono (g : number) (s1 s2 : R) :
  s1 <= s2 → (g = NaN ∨ ∃ x, g = Fin x ∧ 0 <= x) →
  nle (g / Fin 255 * Fin s1)%num (g / Fin 255 * Fin s2)%num.
Proof.
  intros Hs [->|(x & -> & Hx)]; simpl; [done|].
  apply Rmult_le_compat_l; [|done].
  apply Rmult_le_pos; [done|]. lra.
Qed.

Lemma combineAt_mono P params Rv Gv Bv Lv glow d0 i (s : R) :
  glowStrength params <= s →
  Forall (λ z, (0 ≤ z)%Z) glow →
  Forall2 Z.le
    (combineAt P params Rv Gv Bv Lv glow d0 i)
    (combineAt P (setParam params key_glowStrength s) Rv Gv Bv Lv glow d0 i).
Proof.
  intros Hs Hglow. unfold combineAt, combine.
  cbn [setParam glowStrength grainStrength fmap list_fmap].
  repeat constructor.
  - apply ToUint8Clamp_nle, nmul_mono_r; [lra|]. apply clamp_mono.
    apply nadd_mono; [|apply nle_refl].
    apply nadd_mono; [apply nle_refl|].
    apply glow_term_mono; [done|]. by apply sample_nonneg.
  - apply ToUint8Clamp_nle, nmul_mono_r; [lra|]. apply clamp_mono.
    apply nadd_mono; [|apply nle_refl].
    apply nadd_mono; [apply nle_refl|].
    apply glow_term_mono; [done|]. by apply sample_nonneg.
  - apply ToUint8Clamp_nle, nmul_mono_r; [lra|]. apply clamp_mono.
    apply nadd_mono; [|apply nle_refl].
    apply nadd_mono; [apply nle_refl|].
    apply glow_term_mono; [done|]. by apply sample_nonneg.
  - lia.
Qed.

(** X12: glow only brightens: in the combine loop, for the same arrays and
    the same draws of [Math.random], a higher [glowStrength] gives an output
    in which no byte is lower (the glow bytes being non-negative). *)
Theorem combineGrain_glow_brightens P (aR aG aB lum glow : nat) len params σ
    (s : R) :
  (0 ≤ len)%Z →
  (glow < length (u8c σ))%nat →
  Forall (λ z, (0 ≤ z)%Z) (bytes σ glow) →
  glowStrength params <= s →
  ∃ out1 σ1 out2 σ2,
    combineGrain P aR aG aB lum glow len params σ = Ok out1 σ1 ∧
    combineGrain P aR aG aB lum glow len
                 (setParam params key_glowStrength s) σ = Ok out2 σ2 ∧
    Forall2 Z.le (bytes σ1 out1) (bytes σ2 out2).
Proof.
  intros Hlen Hlive Hglow Hs. eexists _, _, _, _.
  split; [by apply combineGrain_run|].
  split; [by apply combineGrain_run|].
  rewrite !(bytes_ext _ _ _ _ 0) by lia. slot.
  apply Forall2_blocks. intros i Hi. by apply combineAt_mono.
Qed.

Lemma combineGrain_glow_brightens_witness :
  (0 ≤ 1)%Z ∧ (0 < length (u8c graded_world))%nat ∧
  Forall (λ z, (0 ≤ z)%Z) (bytes graded_world 0) ∧
  glowStrength defaultParams <= 1 ∧
  ∃ out1 σ1 out2 σ2,
    combineGrain unfiltered 0 1 2 3 0 1 defaultParams graded_world
      = Ok out1 σ1 ∧
    combineGrain unfiltered 0 1 2 3 0 1
                 (setParam defaultParams key_glowStrength 1) graded_world
      = Ok out2 σ2 ∧
    Forall2 Z.le (bytes σ1 out1) (bytes σ2 out2).
Proof.
  assert (Hg : Forall (λ z, (0 ≤ z)%Z) (bytes graded_world 0)).
  { repeat constructor; lia. }
  split; [lia|]. split; [simpl; lia|]. split; [exact Hg|].
  split; [simpl; lra|].
  apply (combineGrain_glow_brightens unfiltered 0 1 2 3 0 1 defaultParams
           graded_world 1); [lia | simpl; lia | exact Hg | simpl; lra].
Defined.

(** ** Tone and grade, further *)

Lemma exp_le x y : x <= y → exp x <= exp y.
Proof.
  intros [Hlt | ->]; [left; by apply exp_increasing | right; done].
Qed.

Lemma toneCurve_mono a c c' : 0 <= a → c <= c' → toneCurve a c <= toneCurve a c'.
Proof.
  intros Ha Hc. unfold toneCurve.
  pose proof (exp_pos (- a * (c - 0.5))).
  pose proof (exp_pos (- a * (c' - 0.5))).
  assert (exp (- a * (c' - 0.5)) <= exp (- a * (c - 0.5))) by (apply exp_le; nra).
  unfold Rdiv. rewrite !Rmult_1_l. apply Rinv_le_contravar; lra.
Qed.

Lemma toneCurve_flat c : toneCurve 0 c = 0.5.
Proof.
  unfold toneCurve. replace (- 0 * (c - 0.5)) with 0 by lra.
  rewrite exp_0. lra.
Qed.

(** The arrays of the tone stage, pixel by pixel. *)
Lemma toneMapGrade_at px len params σ :
  (0 ≤ len)%Z →
  ∃ aR aG aB lum σ',
    toneMapGrade px len params σ = Ok (aR, aG, aB, lum) σ' ∧
    ∀ i, (i < Z.to_nat len)%nat →
      floats σ' aR !! i = Some (gradedAt params (bytes σ px) i).1.1.1 ∧
      floats σ' aG !! i = Some (gradedAt params (bytes σ px) i).1.1.2 ∧
      floats σ' aB !! i = Some (gradedAt params (bytes σ px) i).1.2 ∧
      floats σ' lum !! i = Some (gradedAt params (bytes σ px) i).2.
Proof.
  intros Hlen. eexists _, _, _, _, _. split; [by apply toneMapGrade_run|].
  intros i Hi.
  rewrite (floats_ext _ _ _ _ 0), (floats_ext _ _ _ _ 1),
    (floats_ext _ _ _ _ 2), (floats_ext _ _ _ _ 3) by lia.
  slot. by rewrite !lookup_fmap_seq by done.
Qed.

(** X13: with [toneA] 0 the tone stage is flat: whatever the bytes of a
    pixel are, it stores 0.5 for its R, G, B and luminance. *)
Theorem toneMapGrade_flat px len params σ :
  (0 ≤ len)%Z →
  length (bytes σ px) = Z.to_nat (len * 4) →
  toneA params = 0 →
  ∃ aR aG aB lum σ',
    toneMapGrade px len params σ = Ok (aR, aG, aB, lum) σ' ∧
    ∀ i, (i < Z.to_nat len)%nat →
      floats σ' aR !! i = Some (Fin 0.5) ∧
      floats σ' aG !! i = Some (Fin 0.5) ∧
      floats σ' aB !! i = Some (Fin 0.5) ∧
      floats σ' lum !! i = Some (Fin 0.5).
Proof.
  intros Hlen Hpx Ha.
  destruct (toneMapGrade_at px len params σ Hlen)
    as (aR & aG & aB & lum & σ' & Hrun & Hat).
  exists aR, aG, aB, lum, σ'. split; [done|]. intros i Hi.
  destruct (lookup_lt_is_Some_2 (bytes σ px) (i * 4)) as [r Hr]; [lia|].
  destruct (lookup_lt_is_Some_2 (bytes σ px) (i * 4 + 1)) as [g Hg]; [lia|].
  destruct (lookup_lt_is_Some_2 (bytes σ px) (i * 4 + 2)) as [b Hb]; [lia|].
  destruct (Hat i Hi) as (ER & EG & EB & EL).
  rewrite (gradedAt_bytes _ _ _ r g b), toneGrade_Fin in ER, EG, EB, EL by done.
  cbn [fst snd] in ER, EG, EB, EL.
  rewrite ER, EG, EB, EL, Ha, !toneCurve_flat.
  assert (El : luma 0.5 0.5 0.5 = 0.5) by (unfold luma; lra).
  rewrite El.
  assert (Es : shadowMask 0.5 = 0).
  { unfold shadowMask, clamp01. repeat destruct Rlt_dec; lra. }
  assert (Eh : highlightMask 0.5 = 0).
  { unfold highlightMask, clamp01. repeat destruct Rlt_dec; lra. }
  unfold gradedRed, gradedGreen, gradedBlue. rewrite Es, Eh.
  repeat split; do 2 f_equal; unfold clamp01; repeat destruct Rlt_dec; lra.
Qed.

Lemma toneMapGrade_flat_witness :
  (0 ≤ 1)%Z ∧
  length (bytes grey_world 0) = Z.to_nat (1 * 4) ∧
  toneA (setParam defaultParams key_toneA 0) = 0 ∧
  ∃ aR aG aB lum σ',
    toneMapGrade 0 1 (setParam defaultParams key_toneA 0) grey_world
      = Ok (aR, aG, aB, lum) σ' ∧
    ∀ i, (i < Z.to_nat 1)%nat →
      floats σ' aR !! i = Some (Fin 0.5) ∧
      floats σ' aG !! i = Some (Fin 0.5) ∧
      floats σ' aB !! i = Some (Fin 0.5) ∧
      floats σ' lum !! i = Some (Fin 0.5).
Proof.
  split; [lia|]. split; [reflexivity|]. split; [reflexivity|].
  apply (toneMapGrade_flat 0 1 (setParam defaultParams key_toneA 0)
           grey_world); [lia | reflexivity | reflexivity].
Defined.

(** X14: for a [toneA] that is not negative the tone stage keeps the order
    of brightness: a pixel whose three bytes are each at least those of
    another gets a luminance that is at least the other's. *)
Theorem toneMapGrade_keeps_order px len params σ i j
    (r g b r' g' b' : Z) :
  (0 ≤ len)%Z → (i < Z.to_nat len)%nat → (j < Z.to_nat len)%nat →
  bytes σ px !! (i * 4)%nat = Some r →
  bytes σ px !! (i * 4 + 1)%nat = Some g →
  bytes σ px !! (i * 4 + 2)%nat = Some b →
  bytes σ px !! (j * 4)%nat = Some r' →
  bytes σ px !! (j * 4 + 1)%nat = Some g' →
  bytes σ px !! (j * 4 + 2)%nat = Some b' →
  0 <= toneA params →
  (r ≤ r')%Z → (g ≤ g')%Z → (b ≤ b')%Z →
  ∃ aR aG aB lum σ' l l',
    toneMapGrade px len params σ = Ok (aR, aG, aB, lum) σ' ∧
    floats σ' lum !! i = Some (Fin l) ∧
    floats σ' lum !! j = Some (Fin l') ∧
    l <= l'.
Proof.
  intros Hlen Hi Hj Hr Hg Hb Hr' Hg' Hb' Ha Lr Lg Lb.
  destruct (toneMapGrade_at px len params σ Hlen)
    as (aR & aG & aB & lum & σ' & Hrun & Hat).
  destruct (Hat i Hi) as (_ & _ & _ & EL).
  destruct (Hat j Hj) as (_ & _ & _ & EL').
  rewrite (gradedAt_bytes _ _ _ r g b), toneGrade_Fin in EL by done.
  rewrite (gradedAt_bytes _ _ _ r' g' b'), toneGrade_Fin in EL' by done.
  cbn [fst snd] in EL, EL'.
  eexists aR, aG, aB, lum, σ', _, _.
  split; [done|]. split; [exact EL|]. split; [exact EL'|].
  apply IZR_le in Lr, Lg, Lb.
  assert (toneCurve (toneA params) (IZR r / 255)
          <= toneCurve (toneA params) (IZR r' / 255))
    by (apply toneCurve_mono; lra).
  assert (toneCurve (toneA params) (IZR g / 255)
          <= toneCurve (toneA params) (IZR g' / 255))
    by (apply toneCurve_mono; lra).
  assert (toneCurve (toneA params) (IZR b / 255)
          <= toneCurve (toneA params) (IZR b' / 255))
    by (apply toneCurve_mono; lra).
  unfold luma. lra.
Qed.

Lemma toneMapGrade_keeps_order_witness :
  (0 ≤ 2)%Z ∧ (0 < Z.to_nat 2)%nat ∧ (1 < Z.to_nat 2)%nat ∧
  0 <= toneA defaultParams ∧
  ∃ aR aG aB lum σ' l l',
    toneMapGrade 0 2 defaultParams two_pixel_world = Ok (aR, aG, aB, lum) σ' ∧
    floats σ' lum !! 0%nat = Some (Fin l) ∧
    floats σ' lum !! 1%nat = Some (Fin l') ∧
    l <= l'.
Proof.
  split; [lia|]. split; [simpl; lia|]. split; [simpl; lia|].
  split; [simpl; lra|].
  apply (toneMapGrade_keeps_order 0 2 defaultParams two_pixel_world 0 1
           10 20 30 40 50 60);
    [lia | simpl; lia | simpl; lia | reflexivity.. | simpl; lra | lia | lia | lia].
Defined.

(** X15: reading past the end of the input gives [NaN]: for a pixel of
    which a colour byte is missing, the tone stage stores [NaN] in R, G, B
    and the luminance. *)
Theorem toneMapGrade_missing_bytes px len params σ i :
  (0 ≤ len)%Z → (i < Z.to_nat len)%nat →
  (length (bytes σ px) ≤ i * 4 + 2)%nat →
  ∃ aR aG aB lum σ',
    toneMapGrade px len params σ = Ok (aR, aG, aB, lum) σ' ∧
    floats σ' aR !! i = Some NaN ∧
    floats σ' aG !! i = Some NaN ∧
    floats σ' aB !! i = Some NaN ∧
    floats σ' lum !! i = Some NaN.
Proof.
  intros Hlen Hi Hshort.
  destruct (toneMapGrade_at px len params σ Hlen)
    as (aR & aG & aB & lum & σ' & Hrun & Hat).
  exists aR, aG, aB, lum, σ'. split; [done|].
  destruct (Hat i Hi) as (ER & EG & EB & EL). rewrite ER, EG, EB, EL.
  assert (E : gradedAt params (bytes σ px) i = (NaN, NaN, NaN, NaN)).
  { unfold gradedAt, sample at 3.
    rewrite (lookup_ge_None_2 _ (i * 4 + 2)) by done.
    cbn [from_option]. unfold toneGrade.
    destruct (sample (bytes σ px) (i * 4)), (sample (bytes σ px) (i * 4 + 1));
      done. }
  by rewrite E.
Qed.

Lemma toneMapGrade_missing_bytes_witness :
  (0 ≤ 1)%Z ∧ (0 < Z.to_nat 1)%nat ∧
  (length (bytes short_world 0) ≤ 0 * 4 + 2)%nat ∧
  ∃ aR aG aB lum σ',
    toneMapGrade 0 1 defaultParams short_world = Ok (aR, aG, aB, lum) σ' ∧
    floats σ' aR !! 0%nat = Some NaN ∧
    floats σ' aG !! 0%nat = Some NaN ∧
    floats σ' aB !! 0%nat = Some NaN ∧
    floats σ' lum !! 0%nat = Some NaN.
Proof.
  split; [lia|]. split; [simpl; lia|]. split; [simpl; lia|].
  apply (toneMapGrade_missing_bytes 0 1 defaultParams short_world 0);
    [lia | simpl; lia | simpl; lia].
Defined.

(** ** Past the end of the input *)

Lemma combineAt_NaN P params Rv Gv Bv Lv glow d0 i :
  Rv !! i = Some NaN → Gv !! i = Some NaN → Bv !! i = Some NaN →
  combineAt P params Rv Gv Bv Lv glow d0 i = unlit.
Proof.
  intros HR HG HB. unfold combineAt, combine. rewrite HR, HG, HB.
  cbn [default from_option Datatypes.id nadd nmul lift2 clamp Math_min
       Math_max fmap list_fmap].
  by rewrite ToUint8Clamp_255.
Qed.

(** X16: where the input array is too short for the dimensions passed, in a
    run that returns the pixels whose bytes are missing come out black and
    opaque when [softFocusStrength] is 0 (their channels are [NaN] up to the
    store into the byte array). *)
Theorem applyFilmLook_past_the_end P imgData w h params σ i res σ' :
  (0 < w < 2 ^ 31)%Z → (0 < h < 2 ^ 31)%Z →
  softFocusStrength params = 0 →
  (i < Z.to_nat (w * h))%nat →
  (length (bytes σ (data imgData)) ≤ i * 4 + 2)%nat →
  applyFilmLook P imgData w h params σ = Ok res σ' →
  pixelAt (bytes σ' (data res)) i = [0; 0; 0; 255]%Z.
Proof.
  intros Hw Hh Hs Hi Hshort Hrun.
  assert (Hctx : getContext2d P = true)
    by (apply (applyFilmLook_Ok_context P imgData w h params σ res σ');
        [nia | done]).
  destruct (applyFilmLook_result P imgData w h params σ)
    as (res0 & σ0 & Hrun0 & Hbytes & _); [done..|].
  rewrite Hrun in Hrun0. injection Hrun0 as <- <-.
  rewrite Hbytes, final_pixel by done.
  set (px := bytes σ (data imgData)) in *.
  assert (E : gradedAt params px i = (NaN, NaN, NaN, NaN)).
  { unfold gradedAt, sample at 3.
    rewrite (lookup_ge_None_2 _ (i * 4 + 2)) by done.
    cbn [from_option]. unfold toneGrade.
    destruct (sample px (i * 4)), (sample px (i * 4 + 1)); done. }
  assert (Hout : ∀ c, (c < 4)%nat →
            outOf P params w h px (draws σ) !! (i * 4 + c)%nat = unlit !! c).
  { intros c Hc. unfold outOf. rewrite lookup_blocks by done.
    rewrite combineAt_NaN; [done|..].
    - unfold gradedR. rewrite lookup_fmap_seq by done. by rewrite E.
    - unfold gradedG. rewrite lookup_fmap_seq by done. by rewrite E.
    - unfold gradedB. rewrite lookup_fmap_seq by done. by rewrite E. }
  rewrite (blendAt_neutral params _ _ i NaN NaN NaN); [|done|..].
  - cbn [fmap list_fmap]. by rewrite ToUint8Clamp_255.
  - rewrite <- (Nat.add_0_r (i * 4)). by rewrite Hout by lia.
  - by rewrite Hout by lia.
  - by rewrite Hout by lia.
  - unfold softOf. rewrite length_pixelsOf. unfold pixels. lia.
Qed.

Lemma applyFilmLook_past_the_end_witness :
  (0 < 2 < 2 ^ 31)%Z ∧ (0 < 1 < 2 ^ 31)%Z ∧
  softFocusStrength neutral = 0 ∧
  (1 < Z.to_nat (2 * 1))%nat ∧
  (length (bytes grey_world (data grey_image)) ≤ 1 * 4 + 2)%nat ∧
  ∃ res σ',
    applyFilmLook unfiltered grey_image 2 1 neutral grey_world = Ok res σ' ∧
    pixelAt (bytes σ' (data res)) 1 = [0; 0; 0; 255]%Z.
Proof.
  split; [lia|]. split; [lia|]. split; [reflexivity|]. split; [simpl; lia|].
  split; [simpl; lia|]. eexists _, _. split.
  - apply (applyFilmLook_run unfiltered grey_image 2 1); [done|lia..].
  - apply (applyFilmLook_past_the_end unfiltered grey_image 2 1 neutral
             grey_world 1);
      [lia | lia | reflexivity | simpl; lia | simpl; lia |].
    apply (applyFilmLook_run unfiltered grey_image 2 1); [done|lia..].
Defined.

(** ** The two blurs *)



Lemma new_ImageData_rejects d w h σ :
  (0 < w < 2 ^ 31)%Z → (0 < h < 2 ^ 31)%Z →
  length (bytes σ d) ≠ Z.to_nat (w * h * 4) →
  new_ImageData d w h σ = Throw InvalidStateError σ ∨
  new_ImageData d w h σ = Throw IndexSizeError σ.
Proof.
  intros Hw Hh Hlen. unfold new_ImageData.
  rewrite (Z.mod_small w), (Z.mod_small h) by lia.
  set (L := Z.of_nat (length (bytes σ d))) in *.
  destruct (Z.eqb_spec L 0); [by left|].
  destruct (Z.eqb_spec (L mod 4) 0) as [Hmod|]; [|by left].
  cbn [orb negb]. right.
  destruct (Z.eqb_spec w 0); [done|].
  destruct (Z.eqb_spec ((L / 4) mod w) 0) as [Hmodw|]; [|done].
  cbn [orb negb].
  destruct (Z.eqb_spec (L / 4 / w) h) as [Hdiv|]; [|done].
  exfalso. apply Hlen.
  assert (L = 4 * (L / 4))%Z by (apply Z_div_exact_full_2; lia).
  assert (L / 4 = w * (L / 4 / w))%Z by (apply Z_div_exact_full_2; lia).
  assert (L = w * h * 4)%Z by (rewrite Hdiv in *; lia).
  unfold L in *. lia.
Qed.

(** X18: both blurs reject a buffer whose length is not [w * h * 4]: the
    [ImageData] constructor throws (InvalidStateError or IndexSizeError)
    before anything is drawn, and the store is as it was. *)
Theorem blurs_reject_mismatch P d w h r σ :
  getContext2d P = true →
  (0 < w < 2 ^ 31)%Z → (0 < h < 2 ^ 31)%Z →
  length (bytes σ d) ≠ Z.to_nat (w * h * 4) →
  ∃ e,
    (e = InvalidStateError ∨ e = IndexSizeError) ∧
    blur P d w h r σ = Throw e σ ∧
    blurSeparate P d w h r σ = Throw e σ.
Proof.
  intros Hctx Hw Hh Hlen.
  destruct (new_ImageData_rejects d w h σ Hw Hh Hlen) as [E|E].
  - exists InvalidStateError. split; [by left|].
    unfold blur, blurSeparate.
    rewrite !(bind_Ok _ _ _ tt σ) by (by apply getContext_run).
    split; by apply bind_Throw.
  - exists IndexSizeError. split; [by right|].
    unfold blur, blurSeparate.
    rewrite !(bind_Ok _ _ _ tt σ) by (by apply getContext_run).
    split; by apply bind_Throw.
Qed.

Lemma blurs_reject_mismatch_witness :
  getContext2d unfiltered = true ∧
  length (bytes ragged_world 0) ≠ Z.to_nat (1 * 1 * 4) ∧
  ∃ e,
    (e = InvalidStateError ∨ e = IndexSizeError) ∧
    blur unfiltered 0 1 1 40 ragged_world = Throw e ragged_world ∧
    blurSeparate unfiltered 0 1 1 40 ragged_world = Throw e ragged_world.
Proof.
  split; [reflexivity|]. split; [simpl; lia|].
  apply (blurs_reject_mismatch unfiltered 0 1 1 40 ragged_world);
    [reflexivity | lia | lia | simpl; lia].
Defined.

(** ** The size of an uploaded image *)

Lemma Math_round_le x k : x <= IZR k → (Math_round x ≤ k)%Z.
Proof.
  intros Hx. unfold Math_round. destruct (base_Int_part (x + / 2)).
  apply Z.lt_succ_r, lt_IZR. rewrite succ_IZR. lra.
Qed.

Lemma Math_round_ge x k : IZR k <= x → (k ≤ Math_round x)%Z.
Proof.
  intros Hx. unfold Math_round. destruct (base_Int_part (x + / 2)).
  apply Z.lt_pred_le, lt_IZR. rewrite <- Z.sub_1_r, minus_IZR. lra.
Qed.

Lemma Math_round_IZR k : Math_round (IZR k) = k.
Proof.
  apply Z.le_antisymm; [apply Math_round_le|apply Math_round_ge]; lra.
Qed.

Lemma Math_round_small x : 0 <= x < / 2 → Math_round x = 0%Z.
Proof.
  intros Hx. unfold Math_round. symmetry. apply Int_part_spec. lra.
Qed.

Section Scale.

Context (width height : Z).
Hypothesis Hwidth : (0 < width)%Z.
Hypothesis Hheight : (0 < height)%Z.

Let M := Rmax (IZR width) (IZR height).
Let scale := Rmin 1 (1600 / M).

Lemma longer_side : 0 < IZR width <= M ∧ 0 < IZR height <= M.
Proof.
  apply IZR_lt in Hwidth, Hheight. unfold M.
  pose proof (Rmax_l (IZR width) (IZR height)).
  pose proof (Rmax_r (IZR width) (IZR height)). lra.
Qed.

Lemma scale_range : 0 < scale <= 1 ∧ M * scale <= 1600.
Proof.
  destruct longer_side as [[H0 H1] _].
  assert (HM : 0 < M) by lra.
  assert (E : M * (1600 / M) = 1600) by (field; lra).
  assert (0 < 1600 / M) by (apply Rdiv_lt_0_compat; lra).
  unfold scale. pose proof (Rmin_l 1 (1600 / M)).
  pose proof (Rmin_r 1 (1600 / M)).
  split; [split; [apply Rmin_glb_lt; lra|done]|]. nra.
Qed.

Lemma scale_small : M <= 1600 → scale = 1.
Proof.
  intros HM. destruct longer_side as [[H0 H1] _].
  unfold scale. apply Rmin_left.
  apply (Rmult_le_reg_r M); [lra|].
  unfold Rdiv. rewrite Rmult_assoc, Rinv_l by lra. lra.
Qed.

Lemma scale_large : 1600 < M → scale = 1600 / M.
Proof.
  intros HM. unfold scale. apply Rmin_right.
  apply (Rmult_le_reg_r M); [lra|].
  unfold Rdiv. rewrite Rmult_assoc, Rinv_l by lra. lra.
Qed.

End Scale.

Lemma scaled_le_max (x M s : R) : 0 <= x <= M → 0 < s <= 1 → M * s <= 1600 →
  0 <= x * s <= 1600 ∧ x * s <= x.
Proof. intros Hx Hs HM. nra. Qed.

Lemma scaledSize_range width height :
  (0 < width)%Z → (0 < height)%Z →
  (0 ≤ (scaledSize width height).1 ≤ 1600)%Z ∧
  (0 ≤ (scaledSize width height).2 ≤ 1600)%Z ∧
  ((scaledSize width height).1 ≤ width)%Z ∧
  ((scaledSize width height).2 ≤ height)%Z.
Proof.
  intros Hw Hh. unfold scaledSize. cbn [fst snd].
  destruct (longer_side width height Hw Hh) as [Hlw Hlh].
  pose proof (scale_range width height Hw Hh) as [Hs HM].
  assert (0 <= IZR width <= Rmax (IZR width) (IZR height)) as Hxw by lra.
  assert (0 <= IZR height <= Rmax (IZR width) (IZR height)) as Hxh by lra.
  destruct (scaled_le_max _ _ _ Hxw Hs HM) as [[? ?] ?].
  destruct (scaled_le_max _ _ _ Hxh Hs HM) as [[? ?] ?].
  repeat split;
    first [apply Math_round_ge | apply Math_round_le]; done.
Qed.

(** X19: the size [onFile] scales an upload to never exceeds 1600 pixels on
    either side and never exceeds the size of the image (it only shrinks). *)
Theorem scaledSize_fits width height :
  (0 < width)%Z → (0 < height)%Z →
  (0 ≤ (scaledSize width height).1 ≤ 1600)%Z ∧
  (0 ≤ (scaledSize width height).2 ≤ 1600)%Z ∧
  ((scaledSize width height).1 ≤ width)%Z ∧
  ((scaledSize width height).2 ≤ height)%Z.
Proof.
  intros Hw Hh. by apply scaledSize_range.
Qed.

Lemma scaledSize_fits_witness :
  (0 < 4000)%Z ∧ (0 < 3000)%Z ∧
  (0 ≤ (scaledSize 4000 3000).1 ≤ 1600)%Z ∧
  (0 ≤ (scaledSize 4000 3000).2 ≤ 1600)%Z ∧
  ((scaledSize 4000 3000).1 ≤ 4000)%Z ∧
  ((scaledSize 4000 3000).2 ≤ 3000)%Z.
Proof.
  split; [lia|]. split; [lia|].
  apply (scaledSize_fits 4000 3000); lia.
Defined.

(** X20: an image of at most 1600 pixels on both sides keeps its size; of a
    larger image the longer side becomes exactly 1600. *)
Theorem scaledSize_exact width height :
  (0 < width)%Z → (0 < height)%Z →
  ((width ≤ 1600)%Z → (height ≤ 1600)%Z →
     scaledSize width height = (width, height)) ∧
  ((1600 < width)%Z → (height ≤ width)%Z →
     (scaledSize width height).1 = 1600%Z) ∧
  ((1600 < height)%Z → (width ≤ height)%Z →
     (scaledSize width height).2 = 1600%Z).
Proof.
  intros Hw Hh. unfold scaledSize. cbn [fst snd].
  pose proof (IZR_lt _ _ Hw) as Hw'. pose proof (IZR_lt _ _ Hh) as Hh'.
  split; [|split].
  - intros Lw Lh. apply IZR_le in Lw, Lh.
    rewrite (scale_small width height Hw Hh) by (apply Rmax_lub; done).
    by rewrite !Rmult_1_r, !Math_round_IZR.
  - intros Lw Lh. apply IZR_lt in Lw. apply IZR_le in Lh.
    rewrite (Rmax_left (IZR width) (IZR height)) by done.
    rewrite Rmin_right.
    + replace (IZR width * (1600 / IZR width)) with (IZR 1600) by (field; lra).
      apply Math_round_IZR.
    + apply (Rmult_le_reg_r (IZR width)); [lra|].
      unfold Rdiv. rewrite Rmult_assoc, Rinv_l by lra. lra.
  - intros Lh Lw. apply IZR_lt in Lh. apply IZR_le in Lw.
    rewrite (Rmax_right (IZR width) (IZR height)) by done.
    rewrite Rmin_right.
    + replace (IZR height * (1600 / IZR height)) with (IZR 1600)
        by (field; lra).
      apply Math_round_IZR.
    + apply (Rmult_le_reg_r (IZR height)); [lra|].
      unfold Rdiv. rewrite Rmult_assoc, Rinv_l by lra. lra.
Qed.

Lemma scaledSize_exact_witness :
  (0 < 4000)%Z ∧ (0 < 3000)%Z ∧ (scaledSize 4000 3000).1 = 1600%Z.
Proof.
  split; [lia|]. split; [lia|].
  apply (scaledSize_exact 4000 3000); lia.
Defined.

Lemma scaledSize_zero width height :
  (0 < width)%Z → (0 < height)%Z →
  (3200 * width < height ∨ 3200 * height < width)%Z →
  (scaledSize width height).1 = 0%Z ∨ (scaledSize width height).2 = 0%Z.
Proof.
  intros Hw Hh Hthin. unfold scaledSize. cbn [fst snd].
  pose proof (IZR_lt _ _ Hw) as Hw'. pose proof (IZR_lt _ _ Hh) as Hh'.
  assert (1 <= IZR width) by (apply IZR_le; lia).
  assert (1 <= IZR height) by (apply IZR_le; lia).
  destruct Hthin as [Ht|Ht]; apply IZR_lt in Ht; rewrite mult_IZR in Ht.
  - left. rewrite (Rmax_right (IZR width) (IZR height)) by lra.
    assert (0 < 1600 / IZR height < 1).
    { split; [apply Rdiv_lt_0_compat; lra|].
      apply (Rmult_lt_reg_r (IZR height)); [lra|].
      unfold Rdiv. rewrite Rmult_assoc, Rinv_l by lra. lra. }
    rewrite Rmin_right by lra. apply Math_round_small.
    split; [nra|].
    apply (Rmult_lt_reg_r (IZR height)); [lra|].
    unfold Rdiv. rewrite !Rmult_assoc, Rinv_l by lra. lra.
  - right. rewrite (Rmax_left (IZR width) (IZR height)) by lra.
    assert (0 < 1600 / IZR width < 1).
    { split; [apply Rdiv_lt_0_compat; lra|].
      apply (Rmult_lt_reg_r (IZR width)); [lra|].
      unfold Rdiv. rewrite Rmult_assoc, Rinv_l by lra. lra. }
    rewrite Rmin_right by lra. apply Math_round_small.
    split; [nra|].
    apply (Rmult_lt_reg_r (IZR width)); [lra|].
    unfold Rdiv. rewrite !Rmult_assoc, Rinv_l by lra. lra.
Qed.

(** [getImageData] of an empty rectangle. *)
Lemma getImageData_zero c sw sh σ :
  (0 ≤ sw ≤ 1600)%Z → (0 ≤ sh ≤ 1600)%Z → (sw = 0 ∨ sh = 0)%Z →
  getImageData c sw sh σ = Throw IndexSizeError σ.
Proof.
  intros Hw Hh Hz. unfold getImageData.
  destruct (Z.leb_spec (- 2 ^ 31) sw); [|lia].
  destruct (Z.leb_spec (- 2 ^ 31) sh); [|lia].
  destruct (Z.ltb_spec sw (2 ^ 31)); [|lia].
  destruct (Z.ltb_spec sh (2 ^ 31)); [|lia].
  cbn [andb negb].
  destruct (Z.eqb_spec sw 0); [done|].
  destruct (Z.eqb_spec sh 0); [done|lia].
Qed.

(** X21: an image more than 3200 times as long as it is wide (or the other
    way round) is scaled to a width (or height) of 0, and the
    [getImageData] that follows in [onFile] throws an IndexSizeError: such
    an upload is never processed. *)
Theorem scaledSize_degenerate width height :
  (0 < width)%Z → (0 < height)%Z →
  (3200 * width < height ∨ 3200 * height < width)%Z →
  ((scaledSize width height).1 = 0%Z ∨ (scaledSize width height).2 = 0%Z) ∧
  ∀ c σ,
    getImageData c (scaledSize width height).1 (scaledSize width height).2 σ
      = Throw IndexSizeError σ.
Proof.
  intros Hw Hh Hthin.
  pose proof (scaledSize_zero width height Hw Hh Hthin) as Hzero.
  split; [done|]. intros c σ.
  destruct (scaledSize_range width height Hw Hh) as (? & ? & _).
  by apply getImageData_zero.
Qed.

Lemma scaledSize_degenerate_witness :
  (0 < 1)%Z ∧ (0 < 5000)%Z ∧ (3200 * 1 < 5000 ∨ 3200 * 5000 < 1)%Z ∧
  ((scaledSize 1 5000).1 = 0%Z ∨ (scaledSize 1 5000).2 = 0%Z) ∧
  ∀ c σ,
    getImageData c (scaledSize 1 5000).1 (scaledSize 1 5000).2 σ
      = Throw IndexSizeError σ.
Proof.
  split; [lia|]. split; [lia|]. split; [left; lia|].
  apply (scaledSize_degenerate 1 5000); [lia | lia | left; lia].
Defined.

(** X1: on a buffer that holds every pixel the tone stage stores only
    numbers of the unit interval, whatever [toneA] is: graded R, G and B and
    the luminance are within [0, 1]; no [NaN] is stored. *)
Theorem toneMapGrade_unit_range px len params σ :
  (0 ≤ len)%Z →
  length (bytes σ px) = Z.to_nat (len * 4) →
  ∃ aR aG aB lum σ',
    toneMapGrade px len params σ = Ok (aR, aG, aB, lum) σ' ∧
    ∀ i, (i < Z.to_nat len)%nat →
      ∃ r g b l : R,
        floats σ' aR !! i = Some (Fin r) ∧
        floats σ' aG !! i = Some (Fin g) ∧
        floats σ' aB !! i = Some (Fin b) ∧
        floats σ' lum !! i = Some (Fin l) ∧
        0 <= r <= 1 ∧ 0 <= g <= 1 ∧ 0 <= b <= 1 ∧ 0 <= l <= 1.
Proof.
  intros Hlen Hpx.
  destruct (toneMapGrade_at px len params σ Hlen)
    as (aR & aG & aB & lum & σ' & Hrun & Hat).
  exists aR, aG, aB, lum, σ'. split; [done|]. intros i Hi.
  destruct (gradedAt_valid params (bytes σ px) i)
    as (r & g & b & l & E & Hr & Hg & Hb & Hl); [lia|].
  destruct (Hat i Hi) as (ER & EG & EB & EL).
  rewrite E in ER, EG, EB, EL. cbn [fst snd] in ER, EG, EB, EL.
  exists r, g, b, l. repeat split; try done; lra.
Qed.

Lemma toneMapGrade_unit_range_witness :
  (0 ≤ 1)%Z ∧
  length (bytes grey_world 0) = Z.to_nat (1 * 4) ∧
  ∃ aR aG aB lum σ',
    toneMapGrade 0 1 defaultParams grey_world = Ok (aR, aG, aB, lum) σ' ∧
    ∀ i, (i < Z.to_nat 1)%nat →
      ∃ r g b l : R,
        floats σ' aR !! i = Some (Fin r) ∧
        floats σ' aG !! i = Some (Fin g) ∧
        floats σ' aB !! i = Some (Fin b) ∧
        floats σ' lum !! i = Some (Fin l) ∧
        0 <= r <= 1 ∧ 0 <= g <= 1 ∧ 0 <= b <= 1 ∧ 0 <= l <= 1.
Proof.
  split; [lia|]. split; [reflexivity|].
  apply (toneMapGrade_unit_range 0 1 defaultParams grey_world);
    [lia | reflexivity].
Defined.
